(** * Knowledge-Graph team project: a shallow embedding and its properties

    The two scripts of the repository are embedded as Rocq functions:

    - [CityLinker] is the location pipeline ("main (not good).py"):
      [to_dbpedia_uri], [resolve_redirect], [get_sameas_links],
      [is_city_wikidata], [link_poi_to_city], [create_poi_city_triples]
      and the merge into [final_graph];
    - [TouristKG] is the category pipeline (test.py): [CATEGORY_REGEX],
      [parse_category_uri] and [build_kg].

    Python strings are sequences of Unicode code points, the SPARQL
    endpoints are answer functions consulted through a state monad that
    logs every query issued, and an rdflib [Graph] is a finite set of
    triples filled by a sequence of [add] calls. *)

From Stdlib Require Import String Ascii NArith List.
From stdpp Require Import base option list countable gmap.

Set Default Proof Using "Type".
Open Scope N_scope.

(** ** Python strings *)

Module Py.

(** A [str] is a sequence of code points. *)
Abbreviation char := N.
Abbreviation str := (list char).

(** String literals of the source, written as Rocq strings. *)
Definition py (s : string) : str :=
  N_of_ascii <$> list_ascii_of_string s.

(** [str.isspace] on one code point, the table of CPython's
    [_PyUnicode_IsWhitespace], which [str.strip()] uses. *)
Definition isspace (c : char) : bool :=
  ((9 <=? c) && (c <=? 13)) || ((28 <=? c) && (c <=? 32))
  || (c =? 133) || (c =? 160) || (c =? 5760)
  || ((8192 <=? c) && (c <=? 8202))
  || (c =? 8232) || (c =? 8233) || (c =? 8239) || (c =? 8287)
  || (c =? 12288).

Fixpoint lstrip (s : str) : str :=
  match s with
  | [] => []
  | c :: s' => if isspace c then lstrip s' else s
  end.

Definition rstrip (s : str) : str := reverse (lstrip (reverse s)).

(** [s.strip()] *)
Definition strip (s : str) : str := rstrip (lstrip s).

(** [s.replace(old, new)] for one-character [old] and [new], the only
    form the scripts use: every occurrence is substituted. *)
Definition replace (old new : char) (s : str) : str :=
  (λ c, if decide (c = old) then new else c) <$> s.

Fixpoint startswith (prefix s : str) : bool :=
  match prefix, s with
  | [], _ => true
  | _ :: _, [] => false
  | p :: prefix', c :: s' => bool_decide (p = c) && startswith prefix' s'
  end.

(** [needle in hay] on strings: substring test. *)
Fixpoint contains (needle hay : str) : bool :=
  startswith needle hay
  || match hay with
     | [] => false
     | _ :: hay' => contains needle hay'
     end.

Definition space : char := 32.
Definition underscore : char := 95.
Definition newline : char := 10.

End Py.
Import Py.

(** ** State monad: the log of what has been sent to the endpoints *)

Definition State (S A : Type) : Type := S → A * S.

Global Instance State_ret {S} : MRet (State S) := λ A a s, (a, s).
Global Instance State_bind {S} : MBind (State S) :=
  λ A B f m s, let '(a, s') := m s in f a s'.

(** ** RDF terms, triples and graphs (rdflib) *)

Module Rdf.

Inductive term :=
| URIRef (uri : str)
| Literal (lexical : str) (datatype : option str).

Global Instance term_eq_dec : EqDecision term.
Proof. solve_decision. Defined.

Global Instance term_countable : Countable term.
Proof.
  refine (inj_countable'
    (λ t, match t with
          | URIRef u => inl u
          | Literal l d => inr (l, d)
          end)
    (λ x, match x with
          | inl u => URIRef u
          | inr (l, d) => Literal l d
          end) _).
  by intros [].
Defined.

Definition triple : Type := term * term * term.

Definition subject (t : triple) : term := t.1.1.
Definition predicate (t : triple) : term := t.1.2.
Definition object (t : triple) : term := t.2.

(** The contents of a [Graph]: a set of triples. *)
Abbreviation Graph := (gset triple).

(** A [Graph()] under construction is observed through the sequence of
    its [g.add(...)] calls; the graph it holds is the set of what was
    added. *)
Definition Adding := State (list triple).

Definition add (t : triple) : Adding () := λ log, ((), log ++ [t]).

Definition graph_of (log : list triple) : Graph := list_to_set log.

(** [Graph()] followed by the calls of [body]. *)
Definition added {A} (body : Adding A) : list triple := (body []).2.

(** [G += g] *)
Definition iadd (G g : Graph) : Graph := G ∪ g.

(** [Namespace(ns)[name]] *)
Definition ns_term (ns : str) (name : str) : term := URIRef (ns ++ name).

Definition RDF_type : term :=
  URIRef (py "http://www.w3.org/1999/02/22-rdf-syntax-ns#type").
Definition RDFS_subClassOf : term :=
  URIRef (py "http://www.w3.org/2000/01/rdf-schema#subClassOf").
Definition OWL_sameAs : term :=
  URIRef (py "http://www.w3.org/2002/07/owl#sameAs").
Definition XSD_boolean : str :=
  py "http://www.w3.org/2001/XMLSchema#boolean".

(** [Literal(s)] and [Literal(b, datatype=XSD.boolean)] *)
Definition plain_literal (s : str) : term := Literal s None.
Definition boolean_literal (b : bool) : term :=
  Literal (if b then py "true" else py "false") (Some XSD_boolean).

(** The [rdfs:subClassOf] triples among a sequence of added triples. *)
Definition subclass_triples (log : list triple) : list triple :=
  filter (λ t, predicate t = RDFS_subClassOf) log.

End Rdf.
Import Rdf.

(** ** The location pipeline *)

Module CityLinker.

(** What the two endpoints hold. They answer deterministically: the
    bindings returned are a function of the URI placed in the query. *)
Record Endpoints := {
  redirect_targets : str → list str;   (* ?target of dbo:wikiPageRedirects *)
  sameas_values : str → list str;      (* DISTINCT ?same of owl:sameAs *)
  city_ask : str → bool                (* ASK (wdt:P31/wdt:P279* ) wd:Q515 *)
}.

(** One entry per [setQuery]/[query()] round trip. *)
Inductive query :=
| RedirectQuery (uri : str)
| SameAsQuery (uri : str)
| CityAsk (uri : str).

Definition Q := State (list query).

Definition issue (q : query) : Q () := λ log, ((), log ++ [q]).

Definition DBR : str := py "http://dbpedia.org/resource/".
Definition EX : str := py "http://example.org/ontology/".

(** STEP 1 *)
Definition to_dbpedia_uri (location_string : str) : str :=
  let clean := replace space underscore (strip location_string) in
  DBR ++ clean.

(** STEP 2 *)
Definition resolve_redirect (ep : Endpoints) (uri : str) : Q str :=
  issue (RedirectQuery uri);;
  let bindings := redirect_targets ep uri in
  mret (match bindings with
        | target :: _ => target
        | [] => uri
        end).

(** STEP 3 *)
Definition get_sameas_links (ep : Endpoints) (dbpedia_uri : str)
  : Q (list str) :=
  issue (SameAsQuery dbpedia_uri);;
  mret (sameas_values ep dbpedia_uri).

(** STEP 4 *)
Definition is_city_wikidata (ep : Endpoints) (wd_uri : str) : Q bool :=
  issue (CityAsk wd_uri);;
  mret (city_ask ep wd_uri).

(** STEP 5 *)
Record LocationInfo := {
  location_string : str;
  dbpedia_uri : str;
  wikidata_uri : option str;
  geonames_uri : option str;
  is_city : bool
}.

Definition wd_links_of (links : list str) : list str :=
  filter (λ l, contains (py "wikidata.org/entity") l = true) links.

Definition geo_links_of (links : list str) : list str :=
  filter (λ l, contains (py "geonames.org") l = true) links.

(** The loop over [wd_links], with its [break]; yields
    [(is_city, verified_wd_uri)]. *)
Fixpoint verify_wd_links (ep : Endpoints) (wd_links : list str)
  : Q (bool * option str) :=
  match wd_links return Q (bool * option str) with
  | [] => mret (false, None)
  | wd_uri :: rest =>
      b ← is_city_wikidata ep wd_uri;
      if b : bool then mret (true, Some wd_uri) else verify_wd_links ep rest
  end.

(** The loop over [geo_links], with its [break]; yields
    [verified_geo_uri]. The guard [if geo_links:] only skips a loop that
    would not run. *)
Fixpoint choose_geonames (geo_links : list str) (verified_wd_uri : option str)
  : option str :=
  match geo_links with
  | [] => None
  | geo_uri :: rest =>
      if decide (Some geo_uri ≠ verified_wd_uri) then Some geo_uri
      else choose_geonames rest verified_wd_uri
  end.

Definition link_poi_to_city (ep : Endpoints) (location_string : str)
  : Q LocationInfo :=
  let db_uri := to_dbpedia_uri location_string in
  resolved ← resolve_redirect ep db_uri;
  links ← get_sameas_links ep resolved;
  let wd_links := wd_links_of links in
  let geo_links := geo_links_of links in
  '(is_city, verified_wd_uri) ← verify_wd_links ep wd_links;
  let verified_geo_uri := choose_geonames geo_links verified_wd_uri in
  mret {| location_string := location_string;
          dbpedia_uri := resolved;
          wikidata_uri := verified_wd_uri;
          geonames_uri := verified_geo_uri;
          is_city := is_city |}.

(** STEP 6 *)

(** Truth value of [location_info.get(key)]: [None] and the empty string
    are false. *)
Definition truthy (v : option str) : bool :=
  match v with
  | Some (_ :: _) => true
  | _ => false
  end.

Definition add_sameas (city : term) (v : option str) : Adding () :=
  if truthy v then add (city, OWL_sameAs, URIRef (default [] v)) else mret ().

Definition create_poi_city_triples_adds
  (poi_uri type_string : str) (location_info : LocationInfo) : Adding () :=
  let poi := URIRef poi_uri in
  let city := URIRef (dbpedia_uri location_info) in
  add (poi, RDF_type, ns_term EX type_string);;
  add (poi, ns_term EX (py "locatedIn"), city);;
  add (poi, ns_term EX (py "typeString"), plain_literal type_string);;
  add (poi, ns_term EX (py "locationString"),
       plain_literal (location_string location_info));;
  add (city, RDF_type, ns_term EX (py "City"));;
  add_sameas city (wikidata_uri location_info);;
  add_sameas city (geonames_uri location_info);;
  add (city, ns_term EX (py "isVerifiedCity"),
       boolean_literal (is_city location_info)).

Definition create_poi_city_triples
  (poi_uri type_string : str) (location_info : LocationInfo) : Graph :=
  graph_of (added (create_poi_city_triples_adds poi_uri type_string
                     location_info)).

(** STEP 7: [final_graph = Graph()], then [final_graph += g] for each. *)
Definition final_graph (graphs : list Graph) : Graph :=
  foldl iadd ∅ graphs.

(** The graphs of the main loop, queries in sequence. *)
Fixpoint location_graphs (ep : Endpoints) (locations : list str)
  : Q (list Graph) :=
  match locations return Q (list Graph) with
  | [] => mret []
  | loc :: rest =>
      info ← link_poi_to_city ep loc;
      let g := create_poi_city_triples
                 (py "http://dbpedia.org/resource/POI_in_" ++ loc)
                 (py "Attraction") info in
      gs ← location_graphs ep rest;
      mret (g :: gs)
  end.

Definition main (ep : Endpoints) (locations : list str) : Q Graph :=
  graphs ← location_graphs ep locations;
  mret (final_graph graphs).

(** The value [resolve_redirect(uri)] returns, and the URI the pipeline
    asks the sameAs links of. *)
Definition resolved (ep : Endpoints) (uri : str) : str :=
  (resolve_redirect ep uri []).1.

Definition resolved_uri (ep : Endpoints) (location : str) : str :=
  resolved ep (to_dbpedia_uri location).

(** No candidate of [l] is a city for the endpoint. *)
Definition none_verifies (ep : Endpoints) (l : list str) : Prop :=
  Forall (λ u, city_ask ep u = false) l.

(** What [add_sameas] adds. *)
Definition sameas_triples (city : term) (v : option str) : list triple :=
  if truthy v then [(city, OWL_sameAs, URIRef (default [] v))] else [].

End CityLinker.

(** ** Regular expressions ([re]): the fragment [CATEGORY_REGEX] uses *)

Module Re.

(** What one position of the subject can be asked to be. *)
Inductive cset :=
| AnyChar                 (* [.]: anything but a line feed *)
| Char (c : char).        (* a literal character *)

Definition cset_mem (cs : cset) (c : char) : bool :=
  match cs with
  | AnyChar => bool_decide (c ≠ newline)
  | Char x => bool_decide (x = c)
  end.

Inductive regex :=
| Eps
| One (cs : cset)
| Cat (r1 r2 : regex)
| Alt (r1 r2 : regex)                 (* [r1|r2] *)
| Plus (greedy : bool) (cs : cset)    (* [cs+] and [cs+?] *)
| Group (n : nat) (r : regex).        (* the [n]-th parenthesis *)

(** A literal run of characters. *)
Fixpoint lit (s : str) : regex :=
  match s with
  | [] => Eps
  | c :: s' => Cat (One (Char c)) (lit s')
  end.

(** A match object: the text of each group. *)
Abbreviation captures := (gmap nat str).

(** What the matcher has consumed between [s] and its suffix [s']. *)
Definition consumed (s s' : str) : str :=
  take (length s - length s')%nat s.

(** The repetition [cs+] in front of the continuation [k]: the greedy
    form first tries to take one more character, the lazy form first
    tries to stop. *)
Fixpoint plus_loop {A} (greedy : bool) (cs : cset) (k : str → option A)
    (s : str) : option A :=
  match s with
  | [] => None
  | c :: s' =>
      if cset_mem cs c then
        if greedy then
          match plus_loop greedy cs k s' with
          | Some m => Some m
          | None => k s'
          end
        else
          match k s' with
          | Some m => Some m
          | None => plus_loop greedy cs k s'
          end
      else None
  end.

(** The backtracking matcher, in continuation-passing style: [k] is the
    rest of the pattern, run on the rest of the subject. Alternatives
    are tried left to right and the first overall success wins. *)
Fixpoint rmatch (r : regex) (s : str) (m : captures)
    (k : str → captures → option captures) : option captures :=
  match r with
  | Eps => k s m
  | One cs =>
      match s with
      | c :: s' => if cset_mem cs c then k s' m else None
      | [] => None
      end
  | Cat r1 r2 => rmatch r1 s m (λ s' m', rmatch r2 s' m' k)
  | Alt r1 r2 =>
      match rmatch r1 s m k with
      | Some res => Some res
      | None => rmatch r2 s m k
      end
  | Plus greedy cs => plus_loop greedy cs (λ s', k s' m) s
  | Group n r =>
      rmatch r s m (λ s' m', k s' (<[n := consumed s s']> m'))
  end.

(** The end of a match: nothing is left to ask of the subject. *)
Abbreviation accept := (λ (_ : str) (m : captures), Some m).

(** [pattern.match(string)]: anchored at the start, not at the end. *)
Definition re_match (pattern : regex) (s : str) : option captures :=
  rmatch pattern s ∅ accept.

(** [m.group(n)] for a group that took part in the match. *)
Definition group (m : captures) (n : nat) : str := default [] (m !! n).

(** The longest run of characters of [cs] at the start of [s]. *)
Fixpoint run_of (cs : cset) (s : str) : str :=
  match s with
  | c :: s' => if cset_mem cs c then c :: run_of cs s' else []
  | [] => []
  end.

End Re.
Import Re.

(** ** The category pipeline *)

Module TouristKG.

Definition EX : str := py "http://example.org/kg/".
Definition DBR : str := py "http://dbpedia.org/resource/".

Definition CATEGORY_PREFIX : str := py "http://dbpedia.org/resource/Category:".

(** [http://dbpedia\.org/resource/Category:(.+?)_(in|of)_(.+)] *)
(** The end of the pattern, [_(in|of)_(.+)]. *)
Definition SEPARATOR_AND_LOCATION : regex :=
  Cat (One (Char underscore))
  (Cat (Group 2 (Alt (lit (py "in")) (lit (py "of"))))
  (Cat (One (Char underscore))
       (Group 3 (Plus true AnyChar)))).

Definition CATEGORY_REGEX : regex :=
  Cat (lit CATEGORY_PREFIX)
  (Cat (Group 1 (Plus false AnyChar))
       SEPARATOR_AND_LOCATION).

Definition parse_category_uri (category_uri : str) : option str * option str :=
  match re_match CATEGORY_REGEX category_uri with
  | Some m =>
      let type_str := replace underscore space (group m 1) in
      let location_str := replace underscore space (group m 3) in
      (Some type_str, Some location_str)
  | None => (None, None)
  end.

(** What the two endpoints answer to [get_wikidata_mapping] and
    [get_wikidata_type_hierarchy]: the values of the bindings, in the
    order of the response. *)
Record Endpoints := {
  get_wikidata_mapping : str → list str;
  get_wikidata_type_hierarchy : str → list (str * str)
}.

(** One row of the data frame. *)
Record Row := {
  POI : str;
  Category : str;
  Type_ : str;
  Location : str
}.

(** The loop over [hierarchy]. *)
Fixpoint add_hierarchy (hierarchy : list (str * str)) (prev_type_uri : term)
  : Adding () :=
  match hierarchy return Adding () with
  | [] => mret ()
  | (super_uri, label) :: rest =>
      let super_ref := URIRef super_uri in
      add (prev_type_uri, RDFS_subClassOf, super_ref);;
      add_hierarchy rest super_ref
  end.

(** The type node of a row: [EX[type_str.replace(" ", "_")]]. *)
Definition type_node (type_str : str) : term :=
  ns_term EX (replace space underscore type_str).

(** The body of the loop over the rows. *)
Definition add_row (ep : Endpoints) (row : Row) : Adding () :=
  let poi_uri := URIRef (POI row) in
  let city_uri := ns_term DBR (replace space underscore (Location row)) in
  let type_str := Type_ row in
  add (poi_uri, RDF_type, ns_term EX (py "POI"));;
  add (poi_uri, ns_term EX (py "locatedIn"), city_uri);;
  add (poi_uri, ns_term EX (py "typeString"), plain_literal type_str);;
  add (city_uri, RDF_type, ns_term EX (py "City"));;
  let wd_links := get_wikidata_mapping ep (POI row) in
  match wd_links return Adding () with
  | [] => mret ()
  | wd0 :: _ =>
      add (poi_uri, OWL_sameAs, URIRef wd0);;
      let hierarchy := get_wikidata_type_hierarchy ep wd0 in
      let prev_type_uri := type_node type_str in
      add (poi_uri, ns_term EX (py "hasType"), prev_type_uri);;
      add (prev_type_uri, RDF_type, ns_term EX (py "AttractionType"));;
      add_hierarchy hierarchy prev_type_uri
  end.

Fixpoint build_kg_adds (ep : Endpoints) (df : list Row) : Adding () :=
  match df return Adding () with
  | [] => mret ()
  | row :: rest => add_row ep row;; build_kg_adds ep rest
  end.

Definition build_kg (ep : Endpoints) (df : list Row) : Graph :=
  graph_of (added (build_kg_adds ep df)).

(** The nodes of a hierarchy response, [URIRef(super_uri)] for each
    result in order. *)
Definition supers (hierarchy : list (str * str)) : list term :=
  (λ r, URIRef r.1) <$> hierarchy.

End TouristKG.

(** ** Definitions that follow the wording of the specification

    They are compared below with the definitions taken from the code. *)

Module Spec.

Inductive error := InvalidLocationError.

Inductive outcome (A : Type) :=
| Returns (a : A)
| Raises (e : error).
Global Arguments Returns {A} a.
Global Arguments Raises {A} e.

(** "trim, substitute spaces with underscores, prepend the DBpedia
    resource namespace. Fails only on empty input (signals
    InvalidLocationError)." *)
Definition toCanonicalURI (location : str) : outcome str :=
  match location with
  | [] => Raises InvalidLocationError
  | _ => Returns (CityLinker.DBR ++ replace space underscore (strip location))
  end.

(** "source_kind ∈ {Wikidata, GeoNames, Other}" *)
Inductive source_kind := Wikidata | GeoNames | Other.

(** A link is of a kind when the pipeline keeps it in the list of that
    kind; [Other] is what neither list keeps. *)
Definition classified (links : list str) (l : str) (k : source_kind) : Prop :=
  match k with
  | Wikidata => l ∈ CityLinker.wd_links_of links
  | GeoNames => l ∈ CityLinker.geo_links_of links
  | Other => l ∈ links ∧ (l ∉ CityLinker.wd_links_of links)
             ∧ (l ∉ CityLinker.geo_links_of links)
  end.

(** "each node subclass-of the next": the links of the chain through
    [nodes], first to last. *)
Fixpoint chain (nodes : list term) : list triple :=
  match nodes with
  | a :: ((b :: _) as rest) => (a, RDFS_subClassOf, b) :: chain rest
  | _ => []
  end.

(** "attaching every superclass directly to the base type" *)
Definition star (base : term) (supers : list term) : list triple :=
  (λ b, (base, RDFS_subClassOf, b)) <$> supers.

(** An occurrence of the separator [_in_] or [_of_]. *)
Definition separator (sep : str) : Prop :=
  sep = py "_in_" ∨ sep = py "_of_".

(** A string that starts with [Category:<Type>_(in|of)_<Location>]
    behind the DBpedia resource namespace, cut into its segments; the
    segments are not empty and hold no line feed. *)
Definition category_shape (uri type sep location rest : str) : Prop :=
  uri = TouristKG.CATEGORY_PREFIX ++ type ++ sep ++ location ++ rest
  ∧ separator sep ∧ type ≠ [] ∧ location ≠ []
  ∧ (newline ∉ type) ∧ (newline ∉ location).

End Spec.

(** ** Sample data: a DBpedia and a Wikidata endpoint, some links *)

Module Samples.

Definition dbr (name : string) : str := CityLinker.DBR ++ py name.
Definition wd (qid : string) : str := py "http://www.wikidata.org/entity/" ++ py qid.
Definition geonames_barcelona : str := py "http://sws.geonames.org/3128760/".

(** [BCN] redirects to [Barna], which redirects to [Barcelona]; only
    [Barcelona] has links; only [Q1492] is a city. *)
Definition endpoints : CityLinker.Endpoints := {|
  CityLinker.redirect_targets u :=
    if decide (u = dbr "BCN") then [dbr "Barna"]
    else if decide (u = dbr "Barna") then [dbr "Barcelona"]
    else [];
  CityLinker.sameas_values u :=
    if decide (u = dbr "Barcelona")
    then [wd "Q15580"; geonames_barcelona; wd "Q1492"; wd "Q5"]
    else [];
  CityLinker.city_ask u := bool_decide (u = wd "Q1492")
|}.

(** A link that carries both markers. *)
Definition both_markers : str := py "http://sws.geonames.org/wikidata.org/entity".

End Samples.

(** ** More of the scripts: splitting, the record loop, the plots *)

Module PySplit.

(** [s.split(sep)] for a non-empty [sep]: the occurrences of [sep] are
    taken left to right without overlap; [skip] counts the characters of
    an occurrence still to pass. The head of the result is the segment
    being read. *)
Fixpoint split_go (sep : str) (skip : nat) (s : str) : list str :=
  match s with
  | [] => [[]]
  | c :: s' =>
      match skip with
      | S n => split_go sep n s'
      | O =>
          if startswith sep s then [] :: split_go sep (length sep - 1) s'
          else match split_go sep 0 s' with
               | seg :: rest => (c :: seg) :: rest
               | [] => [[c]]
               end
      end
  end.

Definition split (sep s : str) : list str := split_go sep 0 s.

(** [l[-1]] on the list a [split] returns, which is never empty. *)
Definition last_of (l : list str) : str := default [] (last l).

Definition hash : char := 35.
Definition slash : char := 47.

End PySplit.
Import PySplit.

Module TouristMain.
Import TouristKG.

(** Truth value of a string or None in [if type_str and location_str]. *)
Definition truthy (v : option str) : bool :=
  match v with
  | Some (_ :: _) => true
  | _ => false
  end.

(** The body of the inner loop of the main pipeline: the record
    appended for one [(poi_uri, category_uri)] pair, if any. *)
Definition record_of (pair : str * str) : option Row :=
  let '(poi_uri, category_uri) := pair in
  let '(type_str, location_str) := parse_category_uri category_uri in
  if truthy type_str && truthy location_str then
    Some {| POI := poi_uri;
            Category := category_uri;
            Type_ := default [] type_str;
            Location := default [] location_str |}
  else None.

(** [all_records] after the loops over the categories and their pairs;
    [pairs_of] is what [get_pois_for_category] returns. *)
Definition all_records (pairs_of : str → list (str * str))
    (categories : list str) : list Row :=
  categories ≫= λ cat_uri, omap record_of (pairs_of cat_uri).

(** The city node [build_kg] makes for a row. *)
Definition city_node (row : Row) : term :=
  ns_term DBR (replace space underscore (Location row)).

End TouristMain.

Module Viz.

(** [str(node)] for a node of the graph. *)
Definition node_str (t : term) : str :=
  match t with
  | URIRef u => u
  | Literal l _ => l
  end.

(** main script, [rdf_to_networkx]: the label of the edge of a triple
    with predicate [p]. *)
Definition edge_label (p : str) : str :=
  if contains (py "#") p then last_of (split (py "#") p)
  else last_of (split (py "/") p).

(** main script, [rdf_to_networkx]: the edges of the directed graph,
    one for each triple whose subject and object are both URIs. *)
Definition uri_edge (t : triple) : option (str * str) :=
  match subject t, object t with
  | URIRef s, URIRef o => Some (s, o)
  | _, _ => None
  end.

Definition rdf_to_networkx_edges (graph : Graph) : gset (str * str) :=
  list_to_set (omap uri_edge (elements graph)).

(** visualize.py, [short_label]. *)
Definition short_label (uri : str) : str :=
  if startswith (py "http://dbpedia.org/resource/Category:") uri then
    replace underscore space (last_of (split (py "Category:") uri))
  else if startswith (py "http://dbpedia.org/resource/") uri then
    replace underscore space (last_of (split (py "resource/") uri))
  else if startswith (py "http://www.wikidata.org/entity/") uri then
    last_of (split (py "/") uri)
  else if startswith (py "http://example.org/kg/") uri then
    last_of (split (py "/") uri)
  else if negb (contains (py "http") uri) then uri
  else last_of (split (py "/") uri).

(** visualize.py: the directed graph has an edge [str(s) → str(o)] for
    every triple; its nodes are the ends of its edges. *)
Definition digraph_edges (g : Graph) : gset (str * str) :=
  set_map (λ t : triple, (node_str (subject t), node_str (object t))) g.

Definition digraph_nodes (g : Graph) : gset str :=
  set_map fst (digraph_edges g) ∪ set_map snd (digraph_edges g).

(** [G.neighbors(n)] of a directed graph: the successors of [n]; a node
    that is not in the graph raises, which is None here. *)
Definition neighbors (g : Graph) (n : str) : option (gset str) :=
  if decide (n ∈ digraph_nodes g) then
    Some (set_map snd (filter (λ e, e.1 = n) (digraph_edges g)))
  else None.

(** The nodes of [subG]: the neighbours of the city and the city. *)
Definition city_subgraph_nodes (g : Graph) (city_uri : str)
  : option (gset str) :=
  ns ← neighbors g city_uri; Some (ns ∪ {[city_uri]}).

End Viz.

Module CityMain.
Import CityLinker.

(** The graph the main loop makes for one location, taken alone. *)
Definition location_graph (ep : Endpoints) (loc : str) : Graph :=
  create_poi_city_triples
    (py "http://dbpedia.org/resource/POI_in_" ++ loc) (py "Attraction")
    (link_poi_to_city ep loc []).1.

End CityMain.

Module TouristSamples.
Import TouristKG.

Definition sagrada : str := py "http://dbpedia.org/resource/Sagrada_Familia".
Definition q48435 : str := py "http://www.wikidata.org/entity/Q48435".

Definition endpoints : Endpoints := {|
  get_wikidata_mapping poi :=
    if decide (poi = sagrada) then [q48435] else [];
  get_wikidata_type_hierarchy wd :=
    if decide (wd = q48435)
    then [(py "http://www.wikidata.org/entity/Q16970", py "church building");
          (py "http://www.wikidata.org/entity/Q24398318",
           py "religious building")]
    else []
|}.

Definition row : Row := {|
  POI := sagrada;
  Category := py "http://dbpedia.org/resource/Category:Churches_in_Barcelona";
  Type_ := py "Churches";
  Location := py "Barcelona"
|}.

Definition other_row : Row := {|
  POI := py "http://dbpedia.org/resource/Prado_Museum";
  Category := py "http://dbpedia.org/resource/Category:Museums_in_Madrid";
  Type_ := py "Museums";
  Location := py "Madrid"
|}.

Definition city_madrid : term := URIRef (py "http://dbpedia.org/resource/Madrid").

(** The same endpoint with a second Wikidata link for the POI. *)
Definition more_links : Endpoints := {|
  get_wikidata_mapping poi :=
    if decide (poi = sagrada)
    then [q48435; py "http://www.wikidata.org/entity/Q2"]
    else [];
  get_wikidata_type_hierarchy := get_wikidata_type_hierarchy endpoints
|}.

End TouristSamples.

(** * Properties *)

(** ** Strings *)

Section Strings.

Lemma lstrip_spec (s : str) :
  ∃ ws, s = ws ++ lstrip s ∧ Forall (λ c, isspace c = true) ws
        ∧ ∀ c, head (lstrip s) = Some c → isspace c = false.
Proof.
  induction s as [|c s (ws & Hs & Hws & Hhd)]; simpl.
  - exists []. by repeat split.
  - destruct (isspace c) eqn:Hc.
    + exists (c :: ws). split; [by rewrite Hs at 1|]. split; [by constructor|done].
    + exists []. split; [done|]. split; [constructor|]. simpl. congruence.
Qed.

Lemma rstrip_spec (s : str) :
  ∃ ws, s = rstrip s ++ ws ∧ Forall (λ c, isspace c = true) ws
        ∧ ∀ c, last (rstrip s) = Some c → isspace c = false.
Proof.
  unfold rstrip. destruct (lstrip_spec (reverse s)) as (ws & Hs & Hws & Hhd).
  exists (reverse ws). split; [|split].
  - rewrite <-(reverse_involutive s), Hs at 1. by rewrite reverse_app.
  - by apply Forall_reverse.
  - intros c. rewrite last_reverse. apply Hhd.
Qed.

Lemma head_app_Some {A} (l k : list A) x : head l = Some x → head (l ++ k) = Some x.
Proof. by destruct l. Qed.

(** [strip] removes a run of white space at each end and leaves a string
    that neither starts nor ends with white space. *)
Lemma strip_spec (s : str) :
  ∃ lead trail, s = lead ++ strip s ++ trail
    ∧ Forall (λ c, isspace c = true) lead
    ∧ Forall (λ c, isspace c = true) trail
    ∧ (∀ c, head (strip s) = Some c → isspace c = false)
    ∧ (∀ c, last (strip s) = Some c → isspace c = false).
Proof.
  unfold strip.
  destruct (lstrip_spec s) as (lead & Hs & Hlead & Hhd).
  destruct (rstrip_spec (lstrip s)) as (trail & Ht & Htrail & Hlast).
  exists lead, trail. repeat split; try done.
  - by rewrite <-Ht.
  - intros c Hc. apply Hhd. rewrite Ht. by apply head_app_Some.
Qed.

Lemma replace_length old new (s : str) : length (replace old new s) = length s.
Proof. unfold replace. by rewrite length_fmap. Qed.

Lemma replace_lookup old new (s : str) i :
  replace old new s !! i = (λ c, if decide (c = old) then new else c) <$> s !! i.
Proof. unfold replace. apply list_lookup_fmap. Qed.

Lemma replace_not_elem old new (s : str) : old ≠ new → old ∉ replace old new s.
Proof.
  intros Hne. unfold replace. rewrite list_elem_of_fmap. intros (c & Hc & _).
  case_decide; congruence.
Qed.

Lemma startswith_spec (p s : str) :
  startswith p s = true ↔ ∃ t, s = p ++ t.
Proof.
  revert s. induction p as [|c p IH]; intros [|d s]; simpl.
  - split; [by exists []|done].
  - split; [by eexists|done].
  - split; [done|]. by intros [t Ht].
  - rewrite andb_true_iff, bool_decide_eq_true, IH. split.
    + intros [-> [t ->]]. by exists t.
    + intros [t Ht]. simplify_eq. eauto.
Qed.

(** [needle in hay] holds exactly when [needle] occurs in [hay]. *)
Lemma contains_spec (needle hay : str) :
  contains needle hay = true ↔ ∃ a b, hay = a ++ needle ++ b.
Proof.
  induction hay as [|c hay IH]; simpl.
  - rewrite orb_false_r, startswith_spec. split.
    + intros [t Ht]. by exists [], t.
    + intros (a & b & Hab). destruct a; [by exists b|done].
  - rewrite orb_true_iff, startswith_spec, IH. split.
    + intros [[t Ht]|(a & b & ->)]; [by exists [], t|by exists (c :: a), b].
    + intros (a & b & Hab). destruct a as [|x a]; [left; by exists b|].
      right. simplify_eq/=. by exists a, b.
Qed.

End Strings.

(** A closed inequality between two URIs, by evaluation. *)
Lemma bool_decide_ne {A} `{EqDecision A} (a b : A) :
  bool_decide (a = b) = false → a ≠ b.
Proof. by intros ?%bool_decide_eq_false. Qed.

Ltac differ := apply bool_decide_ne; vm_compute; reflexivity.

(** ** The location pipeline *)

Module CityLinkerProofs.
Import CityLinker Spec.

Ltac run :=
  simpl in *; unfold mbind, mret, State_bind, State_ret, issue, add in *;
  simpl in *.

Section WithEndpoints.
Context (ep : Endpoints).

Lemma verify_wd_links_cons u rest log :
  verify_wd_links ep (u :: rest) log =
    if city_ask ep u then ((true, Some u), log ++ [CityAsk u])
    else verify_wd_links ep rest (log ++ [CityAsk u]).
Proof. run. destruct (city_ask ep u); reflexivity. Qed.

Lemma verify_wd_links_none l log :
  none_verifies ep l →
  verify_wd_links ep l log = ((false, None), log ++ (CityAsk <$> l)).
Proof.
  intros Hl. revert log. induction Hl as [|u l Hu _ IH]; intros log.
  - simpl. run. by rewrite app_nil_r.
  - rewrite verify_wd_links_cons, Hu, IH. by rewrite <-app_assoc.
Qed.

Lemma verify_wd_links_first pre u post log :
  none_verifies ep pre → city_ask ep u = true →
  verify_wd_links ep (pre ++ u :: post) log
  = ((true, Some u), log ++ (CityAsk <$> pre ++ [u])).
Proof.
  intros Hpre Hu. revert log. induction Hpre as [|v pre Hv _ IH]; intros log.
  - simpl app. by rewrite verify_wd_links_cons, Hu.
  - rewrite <-app_comm_cons, verify_wd_links_cons, Hv, IH.
    by rewrite <-app_assoc.
Qed.

(** Every list of candidates either has a first one that verifies, or
    none. *)
Lemma first_city_split (l : list str) :
  (∃ pre u post, l = pre ++ u :: post ∧ none_verifies ep pre ∧ city_ask ep u = true)
  ∨ none_verifies ep l.
Proof.
  induction l as [|v l [(pre & u & post & -> & Hpre & Hu)|Hl]].
  - right. constructor.
  - destruct (city_ask ep v) eqn:Hv.
    + left. exists [], v, (pre ++ u :: post). by repeat split; [constructor|].
    + left. exists (v :: pre), u, post. by repeat split; [constructor|].
  - destruct (city_ask ep v) eqn:Hv.
    + left. exists [], v, l. by repeat split; [constructor|].
    + right. by constructor.
Qed.

Lemma choose_geonames_rejects (geo : list str) excl :
  Forall (λ x, Some x = excl) geo → choose_geonames geo excl = None.
Proof.
  induction 1 as [|x geo Hx _ IH]; simpl; [done|].
  by rewrite decide_False by (by intros ?).
Qed.

Lemma choose_geonames_first (pre : list str) g post excl :
  Forall (λ x, Some x = excl) pre → Some g ≠ excl →
  choose_geonames (pre ++ g :: post) excl = Some g.
Proof.
  intros Hpre Hg. induction Hpre as [|x pre Hx _ IH]; simpl.
  - by rewrite decide_True.
  - by rewrite decide_False by (by intros ?).
Qed.

Lemma choose_geonames_split (geo : list str) excl :
  (∃ pre g post, geo = pre ++ g :: post
     ∧ Forall (λ x, Some x = excl) pre ∧ Some g ≠ excl)
  ∨ Forall (λ x, Some x = excl) geo.
Proof.
  induction geo as [|x geo [(pre & g & post & -> & Hpre & Hg)|Hgeo]].
  - right. constructor.
  - destruct (decide (Some x = excl)) as [Hx|Hx].
    + left. exists (x :: pre), g, post. by repeat split; [constructor|].
    + left. exists [], x, (pre ++ g :: post). by repeat split; [constructor|].
  - destruct (decide (Some x = excl)) as [Hx|Hx].
    + right. by constructor.
    + left. exists [], x, geo. by repeat split; [constructor|].
Qed.

Lemma choose_geonames_Some geo excl g :
  choose_geonames geo excl = Some g → g ∈ geo ∧ Some g ≠ excl.
Proof.
  induction geo as [|x geo IH]; simpl; [done|].
  case_decide as Hx.
  - intros [= ->]. split; [left|done].
  - intros Hg. destruct (IH Hg). split; [by right|done].
Qed.

Lemma resolve_redirect_run uri log :
  resolve_redirect ep uri log
  = (resolved ep uri, log ++ [RedirectQuery uri]).
Proof. reflexivity. Qed.

(** The pipeline, unfolded: two DBpedia queries, then the two loops. *)
Lemma link_poi_to_city_unfold location log :
  let resolved := resolved_uri ep location in
  let links := sameas_values ep resolved in
  let log2 := log ++ [RedirectQuery (to_dbpedia_uri location);
                      SameAsQuery resolved] in
  let v := verify_wd_links ep (wd_links_of links) log2 in
  link_poi_to_city ep location log =
    ({| location_string := location;
        dbpedia_uri := resolved;
        wikidata_uri := v.1.2;
        geonames_uri := choose_geonames (geo_links_of links) v.1.2;
        is_city := v.1.1 |}, v.2).
Proof.
  cbv zeta. unfold link_poi_to_city, resolve_redirect, get_sameas_links.
  unfold resolved_uri, resolved, resolve_redirect. run.
  rewrite <-app_assoc. simpl.
  by destruct (verify_wd_links _ _ _) as [[b w] l].
Qed.

End WithEndpoints.

Lemma none_verifies_app (ep : Endpoints) l k :
  none_verifies ep (l ++ k) ↔ none_verifies ep l ∧ none_verifies ep k.
Proof. apply Forall_app. Qed.

(** C1. The loop over the Wikidata candidates asks the endpoint about
    them in list order, stops at the first one that is a city and
    returns it, asking about no later candidate; when none is a city
    every candidate has been asked about, [is_city] is false and
    [verified_wd_uri] is None. A candidate that is the only one to
    verify is returned wherever it stands. The record of
    [link_poi_to_city] carries the outcome of that loop on the Wikidata
    links of the location. *)
Theorem first_verified_candidate_wins :
  (∀ ep wd_links log,
     (∃ pre u post,
         wd_links = pre ++ u :: post ∧ none_verifies ep pre
         ∧ city_ask ep u = true
         ∧ verify_wd_links ep wd_links log
           = ((true, Some u), log ++ (CityAsk <$> pre ++ [u])))
     ∨ (none_verifies ep wd_links
        ∧ verify_wd_links ep wd_links log
          = ((false, None), log ++ (CityAsk <$> wd_links))))
  ∧ (∀ ep pre u post log,
       city_ask ep u = true → none_verifies ep (pre ++ post) →
       verify_wd_links ep (pre ++ u :: post) log
       = ((true, Some u), log ++ (CityAsk <$> pre ++ [u])))
  ∧ (∀ ep location log,
       let out := link_poi_to_city ep location log in
       let resolved := resolved_uri ep location in
       let v := verify_wd_links ep (wd_links_of (sameas_values ep resolved))
                  (log ++ [RedirectQuery (to_dbpedia_uri location);
                           SameAsQuery resolved]) in
       (is_city out.1, wikidata_uri out.1) = v.1 ∧ out.2 = v.2).
Proof.
  split; [|split].
  - intros ep wd_links log.
    destruct (first_city_split ep wd_links)
      as [(pre & u & post & -> & Hpre & Hu)|Hnone].
    + left. exists pre, u, post. by rewrite verify_wd_links_first.
    + right. by rewrite verify_wd_links_none.
  - intros ep pre u post log Hu [Hpre _]%none_verifies_app.
    by apply verify_wd_links_first.
  - intros ep location log. cbv zeta. rewrite link_poi_to_city_unfold. simpl.
    by destruct (verify_wd_links _ _ _) as [[b w] l].
Qed.

Lemma first_verified_candidate_wins_witness :
  verify_wd_links Samples.endpoints
    ([Samples.wd "Q15580"] ++ Samples.wd "Q1492" :: [Samples.wd "Q5"]) []
  = ((true, Some (Samples.wd "Q1492")),
     [] ++ (CityAsk <$> [Samples.wd "Q15580"] ++ [Samples.wd "Q1492"])).
Proof.
  apply (proj1 (proj2 first_verified_candidate_wins)).
  - vm_compute. reflexivity.
  - repeat constructor.
Defined.

(** C3. The loop over the GeoNames links returns the first entry that
    differs from the excluded URI, and None on the empty list (and when
    every entry is the excluded one). In the record of
    [link_poi_to_city] a Wikidata URI and a GeoNames URI that are both
    present differ, and the choice is made, and is not the excluded URI,
    as soon as some entry differs from it. *)
Theorem geonames_choice_excludes :
  (∀ (geo_links : list str) excluded,
     (∃ pre g post,
         geo_links = pre ++ g :: post
         ∧ Forall (λ x, Some x = excluded) pre ∧ Some g ≠ excluded
         ∧ choose_geonames geo_links excluded = Some g)
     ∨ (Forall (λ x, Some x = excluded) geo_links
        ∧ choose_geonames geo_links excluded = None))
  ∧ (∀ excluded, choose_geonames [] excluded = None)
  ∧ (∀ ep location log w g,
       let info := (link_poi_to_city ep location log).1 in
       wikidata_uri info = Some w → geonames_uri info = Some g → w ≠ g)
  ∧ (∀ (geo_links : list str) excluded a,
       a ∈ geo_links → Some a ≠ excluded →
       ∃ g, choose_geonames geo_links excluded = Some g ∧ Some g ≠ excluded).
Proof.
  split; [|split; [|split]].
  - intros geo excl.
    destruct (choose_geonames_split geo excl)
      as [(pre & g & post & -> & Hpre & Hg)|Hall].
    + left. exists pre, g, post. by rewrite choose_geonames_first.
    + right. by rewrite choose_geonames_rejects.
  - done.
  - intros ep location log w g. cbv zeta. rewrite link_poi_to_city_unfold.
    simpl. intros Hw Hg%choose_geonames_Some. rewrite Hw in Hg.
    destruct Hg as [_ Hne]. congruence.
  - intros geo excl a Ha Hne.
    destruct (choose_geonames_split geo excl)
      as [(pre & g & post & -> & Hpre & Hg)|Hall].
    + exists g. by rewrite choose_geonames_first.
    + rewrite Forall_forall in Hall. by destruct Hne; apply Hall.
Qed.

Lemma geonames_choice_excludes_witness :
  ∃ g, choose_geonames
         [Samples.wd "Q1492"; Samples.geonames_barcelona]
         (Some (Samples.wd "Q1492")) = Some g
       ∧ Some g ≠ Some (Samples.wd "Q1492").
Proof.
  apply (proj2 (proj2 (proj2 geonames_choice_excludes))
           _ _ Samples.geonames_barcelona).
  - vm_compute. apply list_elem_of_In. simpl. right. left. reflexivity.
  - vm_compute. discriminate.
Defined.

(** C5, counterexample. On the empty location the specification signals
    [InvalidLocationError], the code returns the bare namespace. *)
Lemma to_dbpedia_uri_empty_returns :
  toCanonicalURI [] = Raises InvalidLocationError
  ∧ to_dbpedia_uri [] = py "http://dbpedia.org/resource/"
  ∧ toCanonicalURI [] ≠ Returns (to_dbpedia_uri []).
Proof. split; [|split]; [reflexivity|reflexivity|discriminate]. Qed.

(** C5, amended. [to_dbpedia_uri] is a total function of its argument:
    it cuts the white space at both ends, turns every space of what is
    left into an underscore, character by character, and puts the
    DBpedia resource namespace in front. It never fails: on the empty
    location it returns the bare namespace, and on every other location
    it returns what the specification's builder returns. *)
Theorem to_dbpedia_uri_total :
  (∀ location, ∃ lead body trail,
      location = lead ++ body ++ trail
      ∧ Forall (λ c, isspace c = true) lead
      ∧ Forall (λ c, isspace c = true) trail
      ∧ (∀ c, head body = Some c → isspace c = false)
      ∧ (∀ c, last body = Some c → isspace c = false)
      ∧ to_dbpedia_uri location = DBR ++ replace space underscore body
      ∧ length (to_dbpedia_uri location) = (length DBR + length body)%nat
      ∧ (∀ i, to_dbpedia_uri location !! (length DBR + i)%nat
              = (λ c, if decide (c = space) then underscore else c)
                  <$> body !! i))
  ∧ to_dbpedia_uri [] = DBR
  ∧ (∀ location, location ≠ [] →
       toCanonicalURI location = Returns (to_dbpedia_uri location)).
Proof.
  split; [|split].
  - intros location.
    destruct (strip_spec location) as (lead & trail & Hs & Hl & Ht & Hh & Hla).
    exists lead, (strip location), trail. repeat split; try done.
    + unfold to_dbpedia_uri. by rewrite length_app, replace_length.
    + intros i. unfold to_dbpedia_uri.
      rewrite lookup_app_r by lia.
      replace (length DBR + i - length DBR)%nat with i by lia.
      apply replace_lookup.
  - reflexivity.
  - by intros [|c location].
Qed.

Lemma to_dbpedia_uri_total_witness :
  toCanonicalURI (py " New York ")
  = Returns (to_dbpedia_uri (py " New York "))
  ∧ to_dbpedia_uri (py " New York ")
    = py "http://dbpedia.org/resource/New_York".
Proof.
  split.
  - apply (proj2 (proj2 to_dbpedia_uri_total)). vm_compute. discriminate.
  - vm_compute. reflexivity.
Defined.

(** C6, counterexample. With [BCN] redirecting to [Barna] and [Barna] to
    [Barcelona], resolving [BCN] gives [Barna] and resolving that gives
    [Barcelona]. *)
Lemma resolve_redirect_chain_not_idempotent :
  let x := Samples.dbr "BCN" in
  resolved Samples.endpoints x = Samples.dbr "Barna"
  ∧ resolved Samples.endpoints (resolved Samples.endpoints x)
    = Samples.dbr "Barcelona"
  ∧ resolved Samples.endpoints (resolved Samples.endpoints x)
    ≠ resolved Samples.endpoints x.
Proof.
  split; [|split]; [vm_compute; reflexivity|vm_compute; reflexivity|differ].
Qed.

(** C6, amended. One hop is followed, so resolving twice is resolving
    once exactly when the URI returned for [x] has no redirect target of
    its own, or has itself as first target. *)
Theorem resolve_redirect_idempotent_iff (ep : Endpoints) (x : str) :
  resolved ep (resolved ep x) = resolved ep x
  ↔ head (redirect_targets ep (resolved ep x)) = None
    ∨ head (redirect_targets ep (resolved ep x)) = Some (resolved ep x).
Proof.
  generalize (resolved ep x). intros y. unfold resolved at 1.
  unfold resolve_redirect. run.
  destruct (redirect_targets ep y) as [|t ts]; simpl.
  - split; [by left|done].
  - split; [intros ->; by right|]. by intros [|[= ->]].
Qed.

Lemma resolve_redirect_idempotent_iff_witness :
  resolved Samples.endpoints (resolved Samples.endpoints (Samples.dbr "Barna"))
  = resolved Samples.endpoints (Samples.dbr "Barna").
Proof.
  apply (proj2 (resolve_redirect_idempotent_iff
                  Samples.endpoints (Samples.dbr "Barna"))).
  left. vm_compute. reflexivity.
Defined.

(** C7, counterexample. A link that contains both markers is kept in the
    Wikidata list and in the GeoNames list. *)
Lemma link_in_both_partitions :
  Samples.both_markers ∈ wd_links_of [Samples.both_markers]
  ∧ Samples.both_markers ∈ geo_links_of [Samples.both_markers].
Proof.
  unfold wd_links_of, geo_links_of. rewrite !list_elem_of_filter.
  split; (split; [vm_compute; reflexivity|apply list_elem_of_here]).
Qed.

(** C7, amended. Every link of the aggregation is of at least one of the
    three kinds: Wikidata when it contains [wikidata.org/entity],
    GeoNames when it contains [geonames.org], Other when it contains
    neither. A link is of exactly one kind unless it contains both
    markers, in which case it is both Wikidata and GeoNames. *)
Theorem links_classification (links : list str) (l : str) :
  l ∈ links →
  (∃ k, classified links l k)
  ∧ (classified links l Wikidata
     ↔ contains (py "wikidata.org/entity") l = true)
  ∧ (classified links l GeoNames ↔ contains (py "geonames.org") l = true)
  ∧ (classified links l Other
     ↔ contains (py "wikidata.org/entity") l = false
       ∧ contains (py "geonames.org") l = false)
  ∧ (¬ (contains (py "wikidata.org/entity") l = true
        ∧ contains (py "geonames.org") l = true) →
     ∀ k1 k2, classified links l k1 → classified links l k2 → k1 = k2).
Proof.
  intros Hl.
  assert (classified links l Wikidata
          ↔ contains (py "wikidata.org/entity") l = true) as HW.
  { simpl. unfold wd_links_of. rewrite list_elem_of_filter. tauto. }
  assert (classified links l GeoNames
          ↔ contains (py "geonames.org") l = true) as HG.
  { simpl. unfold geo_links_of. rewrite list_elem_of_filter. tauto. }
  assert (classified links l Other
          ↔ contains (py "wikidata.org/entity") l = false
            ∧ contains (py "geonames.org") l = false) as HO.
  { simpl in *. rewrite HW, HG.
    destruct (contains _ l), (contains _ l); intuition congruence. }
  split; [|split; [done|split; [done|split; [done|]]]].
  - destruct (contains (py "wikidata.org/entity") l) eqn:Hw.
    { exists Wikidata. by apply HW. }
    destruct (contains (py "geonames.org") l) eqn:Hg.
    { exists GeoNames. by apply HG. }
    exists Other. by apply HO.
  - intros Hboth [] []; rewrite ?HW, ?HG, ?HO; intuition congruence.
Qed.

Lemma links_classification_witness :
  (∃ k, classified (sameas_values Samples.endpoints (Samples.dbr "Barcelona"))
          (Samples.wd "Q1492") k)
  ∧ (classified (sameas_values Samples.endpoints (Samples.dbr "Barcelona"))
       (Samples.wd "Q1492") Wikidata
     ↔ contains (py "wikidata.org/entity") (Samples.wd "Q1492") = true).
Proof.
  split.
  - apply (links_classification
             (sameas_values Samples.endpoints (Samples.dbr "Barcelona"))
             (Samples.wd "Q1492")).
    vm_compute. apply list_elem_of_In. simpl. right. right. left. reflexivity.
  - apply (links_classification
             (sameas_values Samples.endpoints (Samples.dbr "Barcelona"))
             (Samples.wd "Q1492")).
    vm_compute. apply list_elem_of_In. simpl. right. right. left. reflexivity.
Defined.

Lemma create_poi_city_triples_added poi_uri type_string info :
  added (create_poi_city_triples_adds poi_uri type_string info) =
    let poi := URIRef poi_uri in
    let city := URIRef (dbpedia_uri info) in
    [(poi, RDF_type, ns_term EX type_string);
     (poi, ns_term EX (py "locatedIn"), city);
     (poi, ns_term EX (py "typeString"), plain_literal type_string);
     (poi, ns_term EX (py "locationString"),
      plain_literal (location_string info));
     (city, RDF_type, ns_term EX (py "City"))]
    ++ sameas_triples city (wikidata_uri info)
    ++ sameas_triples city (geonames_uri info)
    ++ [(city, ns_term EX (py "isVerifiedCity"),
         boolean_literal (is_city info))].
Proof.
  unfold added, create_poi_city_triples_adds, add_sameas, sameas_triples.
  by destruct (truthy (wikidata_uri info)), (truthy (geonames_uri info)).
Qed.

(** C8. When the sameAs query of a location returns no link, the graph
    of the location holds the triple typing the city node as a City and
    the triple giving it [isVerifiedCity] with the boolean literal
    false, and holds no triple whose predicate is [owl:sameAs]. *)
Theorem no_links_no_sameas (ep : Endpoints) (location poi_uri type_string : str)
    (log : list query) :
  sameas_values ep (resolved_uri ep location) = [] →
  let info := (link_poi_to_city ep location log).1 in
  let g := create_poi_city_triples poi_uri type_string info in
  let city := URIRef (resolved_uri ep location) in
  dbpedia_uri info = resolved_uri ep location
  ∧ is_city info = false
  ∧ (city, RDF_type, ns_term EX (py "City")) ∈ g
  ∧ (city, ns_term EX (py "isVerifiedCity"), boolean_literal false) ∈ g
  ∧ (∀ t, t ∈ g → predicate t ≠ OWL_sameAs).
Proof.
  intros Hnone. cbv zeta. rewrite link_poi_to_city_unfold. cbv zeta.
  rewrite Hnone. simpl fst.
  unfold create_poi_city_triples, graph_of.
  rewrite create_poi_city_triples_added. simpl.
  split; [done|split; [done|]].
  split; [|split].
  - rewrite !elem_of_union, !elem_of_singleton. tauto.
  - rewrite !elem_of_union, !elem_of_singleton. tauto.
  - intros t Ht. set_unfold in Ht.
    destruct Ht as [->|[->|[->|[->|[->|[->|[]]]]]]];
      unfold predicate; simpl; differ.
Qed.

Lemma no_links_no_sameas_witness :
  (URIRef (Samples.dbr "Atlantis"),
   ns_term EX (py "isVerifiedCity"), boolean_literal false)
  ∈ create_poi_city_triples (Samples.dbr "POI_in_Atlantis") (py "Attraction")
      (link_poi_to_city Samples.endpoints (py "Atlantis") []).1.
Proof.
  apply (no_links_no_sameas Samples.endpoints (py "Atlantis")
           (Samples.dbr "POI_in_Atlantis") (py "Attraction") []).
  vm_compute. reflexivity.
Defined.

Lemma foldl_iadd (G : Graph) (graphs : list Graph) :
  foldl iadd G graphs = G ∪ ⋃ graphs.
Proof.
  revert G. induction graphs as [|g graphs IH]; intros G; simpl.
  - by rewrite (right_id_L ∅ (∪)).
  - rewrite IH. unfold iadd. by rewrite (assoc_L (∪)).
Qed.

Lemma final_graph_union (graphs : list Graph) : final_graph graphs = ⋃ graphs.
Proof. unfold final_graph. by rewrite foldl_iadd, (left_id_L ∅ (∪)). Qed.

(** C9. A graph is a set of triples and the merge is their union: a
    triple is in the merged graph exactly when it is in one of the
    graphs merged; merging does not depend on the order of the graphs,
    merging the same graphs a second time changes nothing, and neither
    does adding a triple again. *)
Theorem final_graph_is_union :
  (∀ (graphs : list Graph) t,
     t ∈ final_graph graphs ↔ ∃ g, g ∈ graphs ∧ t ∈ g)
  ∧ (∀ G A B : Graph, iadd (iadd G A) B = iadd (iadd G B) A)
  ∧ (∀ G A : Graph, iadd (iadd G A) A = iadd G A)
  ∧ (∀ gs1 gs2 : list Graph,
       final_graph (gs1 ++ gs2) = final_graph (gs2 ++ gs1))
  ∧ (∀ gs : list Graph, final_graph (gs ++ gs) = final_graph gs)
  ∧ (∀ A B : Graph, final_graph [A; B; A; B] = final_graph [A; B])
  ∧ (∀ A B : Graph, final_graph [A; B] = final_graph [B; A])
  ∧ (∀ (log : list triple) t,
       graph_of ((add t ≫= λ _, add t) log).2 = graph_of (add t log).2).
Proof.
  repeat split.
  - rewrite final_graph_union. apply elem_of_union_list.
  - rewrite final_graph_union. apply elem_of_union_list.
  - intros G A B. unfold iadd.
    by rewrite <-!(assoc_L (∪)), (comm_L (∪) A B).
  - intros G A. unfold iadd.
    by rewrite <-(assoc_L (∪)), (idemp_L (∪) A).
  - intros gs1 gs2. rewrite !final_graph_union, !union_list_app_L.
    apply (comm_L (∪)).
  - intros gs. rewrite !final_graph_union, union_list_app_L.
    apply (idemp_L (∪)).
  - intros A B. rewrite !final_graph_union. simpl.
    rewrite !(right_id_L ∅ (∪)), (assoc_L (∪)).
    apply (idemp_L (∪)).
  - intros A B. rewrite !final_graph_union. simpl.
    rewrite !(right_id_L ∅ (∪)). apply (comm_L (∪)).
  - intros log t. unfold graph_of. run.
    rewrite !list_to_set_app_L, <-(assoc_L (∪)).
    by rewrite (idemp_L (∪) (list_to_set [t])).
Qed.

End CityLinkerProofs.

(** ** Regular expressions *)

Module ReProofs.

Lemma consumed_app (p t : str) : consumed (p ++ t) t = p.
Proof.
  unfold consumed. rewrite length_app.
  replace (length p + length t - length t)%nat with (length p) by lia.
  by rewrite take_app_length.
Qed.

(** A literal run matches when the subject starts with it. *)
Lemma rmatch_lit (p s : str) m k :
  rmatch (lit p) s m k
  = if startswith p s then k (drop (length p) s) m else None.
Proof.
  revert s. induction p as [|c p IH]; intros s; [done|].
  destruct s as [|d s]; [done|]. simpl. rewrite IH.
  by destruct (bool_decide (c = d)).
Qed.

Lemma rmatch_lit_app (p t : str) m k : rmatch (lit p) (p ++ t) m k = k t m.
Proof.
  rewrite rmatch_lit.
  rewrite (proj2 (startswith_spec p (p ++ t))) by by exists t.
  by rewrite drop_app_length.
Qed.

(** The equations of the matcher. *)
Lemma rmatch_cat r1 r2 (s : str) m k :
  rmatch (Cat r1 r2) s m k = rmatch r1 s m (λ s' m', rmatch r2 s' m' k).
Proof. reflexivity. Qed.

Lemma rmatch_alt r1 r2 (s : str) m k :
  rmatch (Alt r1 r2) s m k
  = match rmatch r1 s m k with
    | Some res => Some res
    | None => rmatch r2 s m k
    end.
Proof. reflexivity. Qed.

Lemma rmatch_group n r (s : str) m k :
  rmatch (Group n r) s m k
  = rmatch r s m (λ s' m', k s' (<[n := consumed s s']> m')).
Proof. reflexivity. Qed.

Lemma rmatch_char c (s : str) m k :
  rmatch (One (Char c)) s m k
  = match s with
    | d :: s' => if bool_decide (c = d) then k s' m else None
    | [] => None
    end.
Proof. reflexivity. Qed.

Lemma rmatch_char_cons c (s : str) m k :
  rmatch (One (Char c)) (c :: s) m k = k s m.
Proof. rewrite rmatch_char. by rewrite bool_decide_true. Qed.

Lemma rmatch_plus greedy cs (s : str) m k :
  rmatch (Plus greedy cs) s m k = plus_loop greedy cs (λ s', k s' m) s.
Proof. reflexivity. Qed.

Lemma run_of_spec cs (s : str) :
  ∃ R, s = run_of cs s ++ R
       ∧ Forall (λ c, cset_mem cs c = true) (run_of cs s)
       ∧ ∀ c, head R = Some c → cset_mem cs c = false.
Proof.
  induction s as [|c s (R & Hs & Hrun & HR)]; simpl.
  - exists []. by repeat split.
  - destruct (cset_mem cs c) eqn:Hc.
    + exists R. split; [by rewrite Hs at 1|]. split; [by constructor|done].
    + exists (c :: s). split; [done|]. split; [constructor|].
      simpl. congruence.
Qed.

(** A run followed by nothing of the set is the longest run. *)
Lemma run_of_app cs (L R : str) :
  Forall (λ c, cset_mem cs c = true) L →
  (∀ c, head R = Some c → cset_mem cs c = false) →
  run_of cs (L ++ R) = L.
Proof.
  intros HL HR. induction HL as [|c L Hc _ IH]; simpl.
  - destruct R as [|c R]; [done|]. simpl. by rewrite (HR c).
  - by rewrite Hc, IH.
Qed.

(** Greedy repetition in front of a continuation that cannot fail takes
    the longest run. *)
Lemma plus_greedy_run {A} cs (k : str → option A) (s : str) :
  (∀ s', is_Some (k s')) →
  plus_loop true cs k s
  = match run_of cs s with
    | [] => None
    | _ :: _ => k (drop (length (run_of cs s)) s)
    end.
Proof.
  intros Hk. induction s as [|c s IH]; [done|]. simpl.
  destruct (cset_mem cs c); [|done]. rewrite IH. simpl.
  destruct (run_of cs s) as [|d L] eqn:Hrun; simpl; [done|].
  by destruct (Hk (drop (S (length L)) s)) as [x ->].
Qed.

(** Lazy repetition stops at the shortest run after which the
    continuation succeeds. *)
Lemma plus_lazy_first {A} cs (k : str → option A) (T R : str) res :
  T ≠ [] → Forall (λ c, cset_mem cs c = true) T →
  k R = Some res →
  (∀ T1 T2, T = T1 ++ T2 → T1 ≠ [] → T2 ≠ [] → k (T2 ++ R) = None) →
  plus_loop false cs k (T ++ R) = Some res.
Proof.
  intros Hne HT Hk Hmin. induction HT as [|c T Hc HT IH]; [done|].
  simpl. rewrite Hc. destruct T as [|d T].
  - simpl. by rewrite Hk.
  - rewrite (Hmin [c] (d :: T)) by done. apply IH; [done|].
    intros T1 T2 Heq H1 H2.
    apply (Hmin (c :: T1) T2); [by rewrite Heq|done|done].
Qed.

Lemma plus_lazy_Some {A} cs (k : str → option A) (s : str) res :
  plus_loop false cs k s = Some res →
  ∃ T R, s = T ++ R ∧ T ≠ [] ∧ Forall (λ c, cset_mem cs c = true) T
         ∧ k R = Some res
         ∧ ∀ T1 T2, T = T1 ++ T2 → T1 ≠ [] → T2 ≠ [] → k (T2 ++ R) = None.
Proof.
  induction s as [|c s IH]; [done|]. simpl.
  destruct (cset_mem cs c) eqn:Hc; [|done].
  destruct (k s) as [r|] eqn:Hk.
  - intros [= ->]. exists [c], s. repeat split; try done.
    + by repeat constructor.
    + intros [|? [|? ?]] [|? ?]; naive_solver.
  - intros (T & R & -> & HT & Hall & HR & Hmin)%IH.
    exists (c :: T), R. repeat split; try done.
    + by constructor.
    + intros [|x T1] T2 Heq H1 H2; [done|]. simplify_eq/=.
      destruct T1 as [|y T1]; [done|]. by apply (Hmin (y :: T1) T2).
Qed.

Lemma plus_lazy_None {A} cs (k : str → option A) (T R : str) :
  plus_loop false cs k (T ++ R) = None →
  T ≠ [] → Forall (λ c, cset_mem cs c = true) T → k R = None.
Proof.
  intros Hloop Hne HT. induction HT as [|c T Hc HT IH]; [done|].
  simpl in Hloop. rewrite Hc in Hloop.
  destruct (k (T ++ R)) eqn:Hk; [done|].
  destruct T as [|d T]; [done|]. by apply IH.
Qed.

End ReProofs.

(** ** The category pipeline *)

Module TouristKGProofs.
Import TouristKG Spec ReProofs.

Lemma location_match (s : str) (m : captures) :
  rmatch (Group 3 (Plus true AnyChar)) s m accept
  = match run_of AnyChar s with
    | [] => None
    | _ :: _ => Some (<[3%nat := run_of AnyChar s]> m)
    end.
Proof.
  simpl. rewrite plus_greedy_run by (by eexists).
  destruct (run_of_spec AnyChar s) as (R & Hs & _).
  destruct (run_of AnyChar s) as [|c L] eqn:Hrun; [done|].
  rewrite Hs. by rewrite drop_app_length, consumed_app.
Qed.

(** The end of the pattern matches a separator followed by a line. *)
Lemma separator_location_match (w L R : str) (m : captures) :
  w = py "in" ∨ w = py "of" →
  L ≠ [] → Forall (λ c, cset_mem AnyChar c = true) L →
  (∀ c, head R = Some c → cset_mem AnyChar c = false) →
  rmatch SEPARATOR_AND_LOCATION (underscore :: w ++ underscore :: L ++ R)
    m accept
  = Some (<[3%nat := L]> (<[2%nat := w]> m)).
Proof.
  intros Hw HL Hline HR. unfold SEPARATOR_AND_LOCATION.
  assert (rmatch (Group 3 (Plus true AnyChar)) (L ++ R) (<[2%nat := w]> m)
            accept = Some (<[3%nat := L]> (<[2%nat := w]> m))) as HG.
  { rewrite location_match, run_of_app by done. by destruct L. }
  rewrite rmatch_cat, rmatch_char_cons, rmatch_cat, rmatch_group, rmatch_alt.
  destruct Hw as [-> | ->].
  - rewrite rmatch_lit_app, rmatch_cat, rmatch_char_cons, consumed_app.
    by rewrite HG.
  - rewrite (rmatch_lit (py "in")).
    replace (startswith (py "in") (py "of" ++ underscore :: L ++ R))
      with false by reflexivity.
    rewrite rmatch_lit_app, rmatch_cat, rmatch_char_cons, consumed_app.
    by rewrite HG.
Qed.

Lemma underscore_location_inv (t : str) (m : captures) res :
  rmatch (Cat (One (Char underscore)) (Group 3 (Plus true AnyChar))) t m accept
  = Some res →
  ∃ L R, t = underscore :: L ++ R ∧ L ≠ []
         ∧ Forall (λ c, cset_mem AnyChar c = true) L
         ∧ (∀ c, head R = Some c → cset_mem AnyChar c = false)
         ∧ res = <[3%nat := L]> m.
Proof.
  rewrite rmatch_cat, rmatch_char. destruct t as [|d t]; [done|].
  case_bool_decide as Hd; [subst d|done]. rewrite location_match.
  destruct (run_of_spec AnyChar t) as (R & Ht & Hrun & HR).
  destruct (run_of AnyChar t) as [|c L] eqn:Hr; [done|].
  intros [= <-]. exists (c :: L), R. by rewrite Ht at 1.
Qed.

(** The end of the pattern matches nothing else. *)
Lemma separator_location_inv (s : str) (m : captures) res :
  rmatch SEPARATOR_AND_LOCATION s m accept = Some res →
  ∃ w L R, (w = py "in" ∨ w = py "of")
           ∧ s = underscore :: w ++ underscore :: L ++ R ∧ L ≠ []
           ∧ Forall (λ c, cset_mem AnyChar c = true) L
           ∧ (∀ c, head R = Some c → cset_mem AnyChar c = false)
           ∧ res = <[3%nat := L]> (<[2%nat := w]> m).
Proof.
  unfold SEPARATOR_AND_LOCATION. rewrite rmatch_cat, rmatch_char.
  destruct s as [|c s]; [done|]. case_bool_decide as Hc; [subst c|done].
  rewrite rmatch_cat, rmatch_group, rmatch_alt, !rmatch_lit.
  destruct (startswith (py "in") s) eqn:Hin.
  - apply startswith_spec in Hin as [t ->].
    replace (startswith (py "of") (py "in" ++ t)) with false by reflexivity.
    rewrite drop_app_length, consumed_app.
    destruct (rmatch _ t _ accept) as [r|] eqn:Ht; [|done].
    intros [= <-].
    apply underscore_location_inv in Ht as (L & R & -> & ? & ? & ? & ->).
    exists (py "in"), L, R. by repeat split; [left|..].
  - destruct (startswith (py "of") s) eqn:Hof; [|done].
    apply startswith_spec in Hof as [t ->].
    rewrite drop_app_length, consumed_app.
    intros (L & R & -> & ? & ? & ? & ->)%underscore_location_inv.
    exists (py "of"), L, R. by repeat split; [right|..].
Qed.

Lemma any_char_mem (c : char) : cset_mem AnyChar c = true ↔ c ≠ newline.
Proof. simpl. apply bool_decide_eq_true. Qed.

Lemma any_char_line (s : str) :
  Forall (λ c, cset_mem AnyChar c = true) s ↔ newline ∉ s.
Proof.
  rewrite Forall_forall. setoid_rewrite any_char_mem. split.
  - intros H Hin. by apply (H newline).
  - intros H c Hc ->. done.
Qed.

Lemma separator_word (sep : str) :
  separator sep ↔ ∃ w, (w = py "in" ∨ w = py "of")
                       ∧ sep = underscore :: w ++ [underscore].
Proof.
  unfold separator. split.
  - intros [-> | ->]; [exists (py "in")|exists (py "of")]; split; auto.
  - intros (w & [-> | ->] & ->); [by left|by right].
Qed.

(** What the three groups hold after a match. *)
Lemma groups_of_match (T w L : str) :
  let m : captures := <[3%nat := L]> (<[2%nat := w]> (<[1%nat := T]> ∅)) in
  group m 1 = T ∧ group m 3 = L.
Proof.
  unfold group. split.
  - rewrite lookup_insert_ne by done. rewrite lookup_insert_ne by done.
    by rewrite lookup_insert_eq.
  - by rewrite lookup_insert_eq.
Qed.

(** Matching the whole pattern: the prefix, then the lazy search for the
    end of the type segment. *)
Lemma category_match_unfold (uri : str) :
  re_match CATEGORY_REGEX uri
  = if startswith CATEGORY_PREFIX uri then
      let body := drop (length CATEGORY_PREFIX) uri in
      plus_loop false AnyChar
        (λ s', rmatch SEPARATOR_AND_LOCATION s'
                 (<[1%nat := consumed body s']> ∅) accept)
        body
    else None.
Proof.
  unfold re_match, CATEGORY_REGEX. rewrite rmatch_cat, rmatch_lit.
  by destruct (startswith CATEGORY_PREFIX uri).
Qed.

Lemma category_match_body (body : str) :
  re_match CATEGORY_REGEX (CATEGORY_PREFIX ++ body)
  = plus_loop false AnyChar
      (λ s', rmatch SEPARATOR_AND_LOCATION s'
               (<[1%nat := consumed body s']> ∅) accept)
      body.
Proof.
  rewrite category_match_unfold.
  rewrite (proj2 (startswith_spec _ _)) by by eexists.
  cbv zeta. by rewrite drop_app_length.
Qed.

(** The parser cuts at the first separator that has a character before
    it and takes the rest of the line for the location. *)
Lemma parse_first_separator (T sep L R : str) :
  separator sep → T ≠ [] → L ≠ [] → newline ∉ T → newline ∉ L →
  (∀ c, head R = Some c → c = newline) →
  (∀ T' sep' rest', separator sep' → T' ≠ [] →
     T ++ sep ++ L ++ R = T' ++ sep' ++ rest' → (length T ≤ length T')%nat) →
  parse_category_uri (CATEGORY_PREFIX ++ T ++ sep ++ L ++ R)
  = (Some (replace underscore space T), Some (replace underscore space L)).
Proof.
  intros (w & Hw & ->)%separator_word HT HL HTl HLl HR Hmin.
  unfold parse_category_uri. rewrite category_match_body.
  rewrite (plus_lazy_first _ _ T _
             (<[3%nat := L]> (<[2%nat := w]> (<[1%nat := T]> ∅)))).
  - by destruct (groups_of_match T w L) as [-> ->].
  - done.
  - by apply any_char_line.
  - rewrite consumed_app. simpl. rewrite <-app_assoc. simpl.
    apply separator_location_match; [done|done|by apply any_char_line|].
    intros c Hc. rewrite (HR c Hc). by apply bool_decide_eq_false; intros [].
  - intros T1 T2 -> H1 H2.
    destruct (rmatch _ _ _ accept) as [r|] eqn:Hr; [|done]. exfalso.
    apply separator_location_inv in Hr
      as (w' & L' & R' & Hw' & Heq & _).
    assert (length (T1 ++ T2) ≤ length T1)%nat as Hlen.
    { apply (Hmin T1 (underscore :: w' ++ [underscore]) (L' ++ R'));
        [apply separator_word; eauto|done|].
      rewrite <-(app_assoc T1), Heq. simpl. by rewrite <-!app_assoc. }
    rewrite length_app in Hlen. destruct T2; [done|simpl in Hlen; lia].
Qed.

(** Whatever has the shape of the pattern is matched. *)
Lemma category_shape_matches (uri T sep L R : str) :
  category_shape uri T sep L R → is_Some (re_match CATEGORY_REGEX uri).
Proof.
  intros (-> & (w & Hw & ->)%separator_word & HT & HL & HTl & HLl).
  rewrite category_match_body.
  destruct (plus_loop _ _ _ _) as [m|] eqn:Hloop; [by eexists|]. exfalso.
  apply plus_lazy_None in Hloop; [|done|by apply any_char_line].
  rewrite consumed_app in Hloop.
  destruct (run_of_spec AnyChar (L ++ R)) as (R' & Heq & Hrun & HR').
  assert (run_of AnyChar (L ++ R) ≠ []) as Hne.
  { destruct L as [|c L]; [done|]. simpl.
    apply any_char_line in HLl. apply Forall_cons in HLl as [Hc _].
    simpl in Hc. by rewrite Hc. }
  set (run := run_of AnyChar (L ++ R)) in *.
  assert ((underscore :: w ++ [underscore]) ++ L ++ R
          = underscore :: w ++ underscore :: run ++ R') as Hs.
  { rewrite Heq. simpl. by rewrite <-app_assoc. }
  rewrite Hs in Hloop. by rewrite separator_location_match in Hloop.
Qed.

(** Whatever is matched has the shape of the pattern, and the groups are
    its type and location segments. *)
Lemma category_match_shape (uri : str) (m : captures) :
  re_match CATEGORY_REGEX uri = Some m →
  ∃ T sep L R, category_shape uri T sep L R
               ∧ (∀ c, head R = Some c → c = newline)
               ∧ group m 1 = T ∧ group m 3 = L.
Proof.
  rewrite category_match_unfold.
  destruct (startswith CATEGORY_PREFIX uri) eqn:Hpre; [|done].
  apply startswith_spec in Hpre as [body ->]. cbv zeta.
  rewrite drop_app_length.
  intros (T & S & -> & HT & HTl & Hk & _)%plus_lazy_Some.
  rewrite consumed_app in Hk.
  apply separator_location_inv in Hk
    as (w & L & R & Hw & -> & HL & HLl & HR & ->).
  exists T, (underscore :: w ++ [underscore]), L, R.
  destruct (groups_of_match T w L) as [-> ->].
  repeat split; try done.
  - simpl. by rewrite <-!app_assoc.
  - apply separator_word. eauto.
  - by apply any_char_line.
  - by apply any_char_line.
  - intros c Hc. specialize (HR c Hc). simpl in HR.
    apply bool_decide_eq_false in HR. by destruct (decide (c = newline)).
Qed.

(** C4, counterexample. Without the DBpedia resource namespace in front,
    [Category:Museums_in_Valencia] is not matched. *)
Lemma bare_category_not_parsed :
  parse_category_uri (py "Category:Museums_in_Valencia") = (None, None)
  ∧ parse_category_uri (py "Category:Museums_in_Valencia")
    ≠ (Some (py "Museums"), Some (py "Valencia")).
Proof. split; [vm_compute; reflexivity|vm_compute; discriminate]. Qed.

(** C4, amended. The parser applies the fixed pattern
    [http://dbpedia.org/resource/Category:<Type>_(in|of)_<Location>] at
    the start of its argument. When the argument has that shape, the
    result is a type segment and a location segment of it with their
    underscores turned into spaces; when it has not, the result is
    (None, None). So
    [http://dbpedia.org/resource/Category:Museums_in_Valencia] gives
    (Museums, Valencia), and [Category:Museums_in_Valencia],
    [Category:RandomPage] and
    [http://dbpedia.org/resource/Category:RandomPage] give
    (None, None). *)
Theorem parse_category_uri_pattern :
  (∀ uri,
     (∃ T sep L R,
         category_shape uri T sep L R
         ∧ (∀ c, head R = Some c → c = newline)
         ∧ parse_category_uri uri
           = (Some (replace underscore space T),
              Some (replace underscore space L)))
     ∨ ((∀ T sep L R, ¬ category_shape uri T sep L R)
        ∧ parse_category_uri uri = (None, None)))
  ∧ parse_category_uri
      (py "http://dbpedia.org/resource/Category:Museums_in_Valencia")
    = (Some (py "Museums"), Some (py "Valencia"))
  ∧ parse_category_uri (py "Category:Museums_in_Valencia") = (None, None)
  ∧ parse_category_uri (py "Category:RandomPage") = (None, None)
  ∧ parse_category_uri (py "http://dbpedia.org/resource/Category:RandomPage")
    = (None, None).
Proof.
  split; [|by vm_compute].
  intros uri. unfold parse_category_uri.
  destruct (re_match CATEGORY_REGEX uri) as [m|] eqn:Hm.
  - left. apply category_match_shape in Hm
      as (T & sep & L & R & Hshape & HR & -> & ->).
    by exists T, sep, L, R.
  - right. split; [|done]. intros T sep L R Hshape.
    apply category_shape_matches in Hshape as [m Hm']. congruence.
Qed.

(** C10, counterexample. The first separator of
    [Category:_in_Spain_in_Europe] has nothing before it; the parser
    cuts at the second one. *)
Lemma leading_separator_not_split :
  py "http://dbpedia.org/resource/Category:_in_Spain_in_Europe"
  = CATEGORY_PREFIX ++ [] ++ py "_in_" ++ py "Spain_in_Europe"
  ∧ parse_category_uri
      (py "http://dbpedia.org/resource/Category:_in_Spain_in_Europe")
    = (Some (py " in Spain"), Some (py "Europe"))
  ∧ parse_category_uri
      (py "http://dbpedia.org/resource/Category:_in_Spain_in_Europe")
    ≠ (Some (replace underscore space []),
       Some (replace underscore space (py "Spain_in_Europe"))).
Proof.
  split; [reflexivity|]. split; [vm_compute; reflexivity|].
  vm_compute. discriminate.
Qed.

(** C10, amended. When a category URI holds several separators [_in_]
    or [_of_], the parser cuts at the first one that has at least one
    character of the type segment before it: the type label is the
    segment before that separator and the location label is everything
    after it up to the end of the line, both with underscores turned
    into spaces. So
    [http://dbpedia.org/resource/Category:Museums_of_art_in_Valencia]
    gives (Museums, art in Valencia). *)
Theorem parse_category_uri_first_separator :
  (∀ T sep L R : str,
     separator sep → T ≠ [] → L ≠ [] → newline ∉ T → newline ∉ L →
     (∀ c, head R = Some c → c = newline) →
     (∀ T' sep' rest', separator sep' → T' ≠ [] →
        T ++ sep ++ L ++ R = T' ++ sep' ++ rest' →
        (length T ≤ length T')%nat) →
     parse_category_uri (CATEGORY_PREFIX ++ T ++ sep ++ L ++ R)
     = (Some (replace underscore space T),
        Some (replace underscore space L)))
  ∧ parse_category_uri
      (py "http://dbpedia.org/resource/Category:Museums_of_art_in_Valencia")
    = (Some (py "Museums"), Some (py "art in Valencia")).
Proof.
  split; [|by vm_compute].
  intros T sep L R. apply parse_first_separator.
Qed.

Lemma parse_category_uri_pattern_witness :
  (∃ T sep L R,
      category_shape
        (py "http://dbpedia.org/resource/Category:Castles_in_Spain")
        T sep L R
      ∧ (∀ c, head R = Some c → c = newline)
      ∧ parse_category_uri
          (py "http://dbpedia.org/resource/Category:Castles_in_Spain")
        = (Some (replace underscore space T),
           Some (replace underscore space L)))
  ∨ ((∀ T sep L R,
        ¬ category_shape
            (py "http://dbpedia.org/resource/Category:Castles_in_Spain")
            T sep L R)
     ∧ parse_category_uri
         (py "http://dbpedia.org/resource/Category:Castles_in_Spain")
       = (None, None)).
Proof. apply (proj1 parse_category_uri_pattern). Defined.

Lemma parse_category_uri_first_separator_witness :
  parse_category_uri
    (CATEGORY_PREFIX ++ py "Museums" ++ py "_of_" ++ py "art_in_Valencia" ++ [])
  = (Some (replace underscore space (py "Museums")),
     Some (replace underscore space (py "art_in_Valencia"))).
Proof.
  apply (proj1 parse_category_uri_first_separator).
  - right. reflexivity.
  - vm_compute. discriminate.
  - vm_compute. discriminate.
  - apply (bool_decide_unpack _). vm_compute. exact I.
  - apply (bool_decide_unpack _). vm_compute. exact I.
  - simpl. discriminate.
  - intros T' sep' rest' Hsep HT' Heq.
    destruct T' as [|a0 [|a1 [|a2 [|a3 [|a4 [|a5 [|a6 T']]]]]]];
      [congruence
      |destruct Hsep as [-> | ->]; vm_compute in Heq; discriminate Heq ..
      |simpl; lia].
Defined.

(** *** The subclass chain *)

Lemma chain_cons (a b : term) l :
  chain (a :: b :: l) = (a, RDFS_subClassOf, b) :: chain (b :: l).
Proof. reflexivity. Qed.

Lemma add_hierarchy_run hierarchy prev (log : list triple) :
  add_hierarchy hierarchy prev log
  = ((), log ++ chain (prev :: supers hierarchy)).
Proof.
  revert prev log.
  induction hierarchy as [|[super_uri label] rest IH]; intros prev log.
  - simpl. by rewrite app_nil_r.
  - simpl add_hierarchy. unfold mbind, State_bind, add. rewrite IH.
    unfold supers. rewrite fmap_cons, chain_cons. by rewrite <-app_assoc.
Qed.

Lemma chain_length (T : term) nodes : length (chain (T :: nodes)) = length nodes.
Proof.
  revert T. induction nodes as [|b nodes IH]; intros T; [done|].
  rewrite chain_cons. cbn [length]. by rewrite IH.
Qed.

(** The i-th link goes from the node before the i-th result to the i-th
    result. *)
Lemma chain_lookup (T : term) nodes i :
  chain (T :: nodes) !! i
  = b ← nodes !! i; a ← (T :: nodes) !! i; Some (a, RDFS_subClassOf, b).
Proof.
  revert T i. induction nodes as [|b nodes IH]; intros T i; [done|].
  rewrite chain_cons. destruct i as [|i]; [done|].
  change (chain (b :: nodes) !! i
          = b' ← nodes !! i; a ← (b :: nodes) !! i;
            Some (a, RDFS_subClassOf, b')).
  apply IH.
Qed.

Lemma chain_subclass_triples nodes :
  subclass_triples (chain nodes) = chain nodes.
Proof.
  unfold subclass_triples.
  induction nodes as [|a [|b nodes] IH]; [done|done|].
  rewrite chain_cons. rewrite filter_cons_True by done. by rewrite IH.
Qed.

Lemma subclass_triples_app l k :
  subclass_triples (l ++ k) = subclass_triples l ++ subclass_triples k.
Proof. apply filter_app. Qed.

Lemma subclass_triples_skip t l :
  predicate t ≠ RDFS_subClassOf → subclass_triples (t :: l) = subclass_triples l.
Proof. intros Hne. unfold subclass_triples. by rewrite filter_cons_False. Qed.

(** The subclass links of one row. *)
Lemma add_row_run ep row (log : list triple) :
  add_row ep row log = ((), log ++ added (add_row ep row)).
Proof.
  unfold added, add_row, mbind, State_bind, add.
  destruct (get_wikidata_mapping ep (POI row)) as [|wd0 wd_links].
  - simpl. by rewrite <-!app_assoc.
  - rewrite !add_hierarchy_run. simpl. by rewrite <-!app_assoc.
Qed.

Lemma add_row_subclass_triples ep row :
  subclass_triples (added (add_row ep row))
  = match get_wikidata_mapping ep (POI row) with
    | [] => []
    | wd0 :: _ =>
        chain (type_node (Type_ row)
               :: supers (get_wikidata_type_hierarchy ep wd0))
    end.
Proof.
  unfold added, add_row, mbind, State_bind, add.
  destruct (get_wikidata_mapping ep (POI row)) as [|wd0 wd_links].
  - simpl. rewrite !subclass_triples_skip; [done|differ..].
  - rewrite add_hierarchy_run. cbn [snd app].
    rewrite !subclass_triples_skip; [|differ..].
    apply chain_subclass_triples.
Qed.

Lemma build_kg_adds_run ep df (log : list triple) :
  build_kg_adds ep df log
  = ((), log ++ (df ≫= λ row, added (add_row ep row))).
Proof.
  revert log. induction df as [|row df IH]; intros log.
  - simpl. by rewrite app_nil_r.
  - simpl. unfold mbind at 1, State_bind at 1. rewrite add_row_run, IH.
    by rewrite <-app_assoc.
Qed.

Lemma build_kg_subclass_triples ep df :
  subclass_triples (added (build_kg_adds ep df))
  = df ≫= λ row,
      match get_wikidata_mapping ep (POI row) with
      | [] => []
      | wd0 :: _ =>
          chain (type_node (Type_ row)
                 :: supers (get_wikidata_type_hierarchy ep wd0))
      end.
Proof.
  unfold added. rewrite build_kg_adds_run. cbn [snd app].
  induction df as [|row df IH]; [done|].
  rewrite !bind_cons, subclass_triples_app, IH.
  by rewrite add_row_subclass_triples.
Qed.

(** C2. For a base type node T and a hierarchy response [A, B, C, ...]
    the loop of [build_kg] adds the links of the chain T → A → B → C:
    one [rdfs:subClassOf] triple per result, in order, the i-th from
    the node of the previous iteration (T for the first) to the i-th
    result. The subclass triples [build_kg] adds are these chains, one
    for each row whose POI has a Wikidata link. With distinct nodes the
    graph holds none of the links T → B, T → C of the star. *)
Theorem build_kg_chains_superclasses :
  (∀ hierarchy (T : term) (log : list triple),
     (add_hierarchy hierarchy T log).2 = log ++ chain (T :: supers hierarchy))
  ∧ (∀ (T : term) hierarchy,
       length (chain (T :: supers hierarchy)) = length hierarchy)
  ∧ (∀ (T : term) hierarchy i,
       chain (T :: supers hierarchy) !! i
       = b ← supers hierarchy !! i;
         a ← (T :: supers hierarchy) !! i;
         Some (a, RDFS_subClassOf, b))
  ∧ (∀ ep df,
       subclass_triples (added (build_kg_adds ep df))
       = df ≫= λ row,
           match get_wikidata_mapping ep (POI row) with
           | [] => []
           | wd0 :: _ =>
               chain (type_node (Type_ row)
                      :: supers (get_wikidata_type_hierarchy ep wd0))
           end)
  ∧ (∀ (T A B C la lb lc : str),
       added (add_hierarchy [(A, la); (B, lb); (C, lc)] (URIRef T))
       = [(URIRef T, RDFS_subClassOf, URIRef A);
          (URIRef A, RDFS_subClassOf, URIRef B);
          (URIRef B, RDFS_subClassOf, URIRef C)])
  ∧ (∀ (T A B C la lb lc : str),
       NoDup [T; A; B; C] →
       let g := graph_of
                  (added (add_hierarchy [(A, la); (B, lb); (C, lc)]
                            (URIRef T))) in
       (URIRef T, RDFS_subClassOf, URIRef A) ∈ g
       ∧ ((URIRef T, RDFS_subClassOf, URIRef B) ∉ g)
       ∧ ((URIRef T, RDFS_subClassOf, URIRef C) ∉ g)).
Proof.
  split; [|split; [|split; [|split; [|split]]]].
  - intros hierarchy T log. by rewrite add_hierarchy_run.
  - intros T hierarchy. rewrite chain_length. unfold supers.
    apply length_fmap.
  - intros T hierarchy i. apply chain_lookup.
  - apply build_kg_subclass_triples.
  - done.
  - intros T A B C la lb lc Hnd. cbv zeta. unfold graph_of, added.
    rewrite add_hierarchy_run. cbn [snd app supers fmap list_fmap fst].
    rewrite !chain_cons. simpl chain.
    apply NoDup_cons in Hnd as [HT Hnd]. apply NoDup_cons in Hnd as [HA Hnd].
    apply NoDup_cons in Hnd as [HB _].
    rewrite !elem_of_list_to_set, !list_elem_of_In. simpl.
    rewrite !list_elem_of_In in HT, HA, HB. simpl in HT, HA, HB.
    split; [by left|].
    split; intros [H|[H|[H|[]]]]; simplify_eq; tauto.
Qed.

Lemma build_kg_chains_superclasses_witness :
  (URIRef (py "T"), RDFS_subClassOf, URIRef (py "A"))
  ∈ graph_of
      (added (add_hierarchy
                [(py "A", py "a"); (py "B", py "b"); (py "C", py "c")]
                (URIRef (py "T"))))
  ∧ ((URIRef (py "T"), RDFS_subClassOf, URIRef (py "B"))
     ∉ graph_of
         (added (add_hierarchy
                   [(py "A", py "a"); (py "B", py "b"); (py "C", py "c")]
                   (URIRef (py "T")))))
  ∧ ((URIRef (py "T"), RDFS_subClassOf, URIRef (py "C"))
     ∉ graph_of
         (added (add_hierarchy
                   [(py "A", py "a"); (py "B", py "b"); (py "C", py "c")]
                   (URIRef (py "T"))))).
Proof.
  apply (proj2 (proj2 (proj2 (proj2 (proj2 build_kg_chains_superclasses))))
           (py "T") (py "A") (py "B") (py "C") (py "a") (py "b") (py "c")).
  apply (bool_decide_unpack _). vm_compute. exact I.
Defined.

End TouristKGProofs.

(** * Further properties of the scripts *)

(** ** The location pipeline, continued *)

Module CityLinkerExtra.
Import CityLinker CityLinkerProofs.

Lemma lstrip_app_space (lead s : str) :
  Forall (λ c, isspace c = true) lead → lstrip (lead ++ s) = lstrip s.
Proof. induction 1 as [|c lead Hc _ IH]; simpl; [done|by rewrite Hc]. Qed.

Lemma lstrip_all_space (s : str) :
  Forall (λ c, isspace c = true) s → lstrip s = [].
Proof. induction 1 as [|c s Hc _ IH]; simpl; [done|by rewrite Hc]. Qed.

Lemma rstrip_app_space (s trail : str) :
  Forall (λ c, isspace c = true) trail → rstrip (s ++ trail) = rstrip s.
Proof.
  intros Ht. unfold rstrip. rewrite reverse_app.
  by rewrite lstrip_app_space by by apply Forall_reverse.
Qed.

Lemma strip_app_space (lead s trail : str) :
  Forall (λ c, isspace c = true) lead →
  Forall (λ c, isspace c = true) trail →
  strip (lead ++ s ++ trail) = strip s.
Proof.
  intros Hl Ht. unfold strip. rewrite lstrip_app_space by done. clear Hl.
  induction s as [|c s IH]; simpl.
  - by rewrite lstrip_all_space.
  - destruct (isspace c); [done|]. by apply (rstrip_app_space (c :: s)).
Qed.

(** X1. White space around the location name does not change the URI:
    a name and the same name with white space added at either end are
    sent to the same DBpedia resource. *)
Theorem to_dbpedia_uri_ignores_outer_space (lead s trail : str) :
  Forall (λ c, isspace c = true) lead →
  Forall (λ c, isspace c = true) trail →
  to_dbpedia_uri (lead ++ s ++ trail) = to_dbpedia_uri s.
Proof.
  intros Hl Ht. unfold to_dbpedia_uri. by rewrite strip_app_space.
Qed.

Lemma to_dbpedia_uri_ignores_outer_space_witness :
  to_dbpedia_uri (py "  " ++ py "Madrid" ++ py " ")
  = to_dbpedia_uri (py "Madrid").
Proof.
  apply to_dbpedia_uri_ignores_outer_space.
  - apply (bool_decide_unpack _). vm_compute. exact I.
  - apply (bool_decide_unpack _). vm_compute. exact I.
Defined.

Lemma strip_length (s : str) : (length (strip s) ≤ length s)%nat.
Proof.
  destruct (strip_spec s) as (lead & trail & Hs & _).
  rewrite Hs at 2. rewrite !length_app. lia.
Qed.

(** X2. The URI built for a location never holds a space: it is the
    DBpedia resource namespace followed by a name without spaces that
    is not longer than the location given. *)
Theorem to_dbpedia_uri_no_space (location : str) :
  (space ∉ to_dbpedia_uri location)
  ∧ ∃ name, to_dbpedia_uri location = DBR ++ name
            ∧ (space ∉ name)
            ∧ (length name ≤ length location)%nat.
Proof.
  assert (space ∉ replace space underscore (strip location)) as Hname.
  { apply replace_not_elem. differ. }
  split.
  - unfold to_dbpedia_uri. rewrite elem_of_app. intros [Hin|Hin]; [|done].
    revert Hin. apply (bool_decide_unpack _). vm_compute. exact I.
  - exists (replace space underscore (strip location)).
    split; [done|]. split; [done|].
    rewrite replace_length. apply strip_length.
Qed.

Lemma verify_wd_links_result ep (wd_links : list str) log :
  let v := (verify_wd_links ep wd_links log).1 in
  (v.1 = true ↔ is_Some v.2)
  ∧ ∀ w, v.2 = Some w → w ∈ wd_links ∧ city_ask ep w = true.
Proof.
  cbv zeta.
  destruct (first_city_split ep wd_links)
    as [(pre & u & post & -> & Hpre & Hu)|Hnone].
  - rewrite verify_wd_links_first by done. simpl. split.
    + split; [by eexists|done].
    + intros w [= <-]. split; [|done].
      rewrite elem_of_app. right. left.
  - rewrite verify_wd_links_none by done. simpl. split.
    + split; [done|by intros [? ?]].
    + done.
Qed.

(** X3. In the record of a location the flag and the Wikidata URI go
    together: [is_city] is true exactly when a Wikidata URI is kept, and
    a URI that is kept is one of the sameAs links of the resolved URI,
    contains [wikidata.org/entity] and was confirmed as a city by the
    Wikidata endpoint. The location string is carried unchanged. *)
Theorem link_poi_to_city_wikidata_consistent ep (location : str) log :
  let info := (link_poi_to_city ep location log).1 in
  (is_city info = true ↔ is_Some (wikidata_uri info))
  ∧ (∀ w, wikidata_uri info = Some w →
       w ∈ sameas_values ep (resolved_uri ep location)
       ∧ contains (py "wikidata.org/entity") w = true
       ∧ city_ask ep w = true)
  ∧ location_string info = location
  ∧ dbpedia_uri info = resolved_uri ep location.
Proof.
  cbv zeta. rewrite link_poi_to_city_unfold. cbv zeta. simpl.
  destruct (verify_wd_links_result ep
              (wd_links_of (sameas_values ep (resolved_uri ep location)))
              (log ++ [RedirectQuery (to_dbpedia_uri location);
                       SameAsQuery (resolved_uri ep location)]))
    as [Hflag Hw].
  split; [done|]. split; [|done].
  intros w [Hin Hcity]%Hw. unfold wd_links_of in Hin.
  apply list_elem_of_filter in Hin as [Hmark Hin]. done.
Qed.

Lemma choose_geonames_no_exclusion (geo_links : list str) :
  choose_geonames geo_links None = head geo_links.
Proof. by destruct geo_links as [|g geo]. Qed.

(** X4. A GeoNames URI kept in the record is one of the sameAs links of
    the resolved URI and contains [geonames.org]; when no Wikidata URI
    was verified, the GeoNames URI is the first GeoNames link, None
    when there is none. *)
Theorem link_poi_to_city_geonames ep (location : str) log :
  let info := (link_poi_to_city ep location log).1 in
  let links := sameas_values ep (resolved_uri ep location) in
  (∀ g, geonames_uri info = Some g →
     g ∈ links ∧ contains (py "geonames.org") g = true)
  ∧ (wikidata_uri info = None →
     geonames_uri info = head (geo_links_of links)).
Proof.
  cbv zeta. rewrite link_poi_to_city_unfold. cbv zeta. simpl. split.
  - intros g [Hin _]%choose_geonames_Some. unfold geo_links_of in Hin.
    apply list_elem_of_filter in Hin as [Hmark Hin]. done.
  - intros ->. apply choose_geonames_no_exclusion.
Qed.

Lemma link_poi_to_city_geonames_witness :
  geonames_uri (link_poi_to_city Samples.endpoints (py "Atlantis") []).1
  = head (geo_links_of
            (sameas_values Samples.endpoints
               (resolved_uri Samples.endpoints (py "Atlantis")))).
Proof.
  apply (proj2 (link_poi_to_city_geonames Samples.endpoints
                  (py "Atlantis") [])).
  vm_compute. reflexivity.
Defined.

Lemma verify_wd_links_value ep (wd_links : list str) log :
  (verify_wd_links ep wd_links log).1 = (verify_wd_links ep wd_links []).1.
Proof.
  destruct (first_city_split ep wd_links)
    as [(pre & u & post & -> & Hpre & Hu)|Hnone].
  - by rewrite !verify_wd_links_first.
  - by rewrite !verify_wd_links_none.
Qed.

(** What was asked before does not change the record of a location. *)
Lemma link_poi_to_city_value ep (location : str) log :
  (link_poi_to_city ep location log).1 = (link_poi_to_city ep location []).1.
Proof.
  rewrite !link_poi_to_city_unfold. cbv zeta. simpl.
  rewrite (verify_wd_links_value _ _ (log ++ _)).
  by rewrite (verify_wd_links_value _ _ [_; _]).
Qed.

Lemma location_graphs_value ep (locations : list str) log :
  (location_graphs ep locations log).1
  = CityMain.location_graph ep <$> locations.
Proof.
  revert log. induction locations as [|loc rest IH]; intros log; [done|].
  simpl. unfold mbind at 1, State_bind at 1.
  destruct (link_poi_to_city ep loc log) as [info log1] eqn:Hinfo.
  unfold mbind at 1, State_bind at 1.
  specialize (IH log1).
  destruct (location_graphs ep rest log1) as [gs log2]. simpl in *.
  rewrite IH. f_equal. unfold CityMain.location_graph.
  rewrite <-(link_poi_to_city_value ep loc log). by rewrite Hinfo.
Qed.

Lemma main_value ep (locations : list str) log :
  (main ep locations log).1 = ⋃ (CityMain.location_graph ep <$> locations).
Proof.
  unfold main, mbind, State_bind.
  pose proof (location_graphs_value ep locations log) as Hgs.
  destruct (location_graphs ep locations log) as [gs log1]. simpl in *.
  by rewrite final_graph_union, Hgs.
Qed.

(** X5. The merged graph of the main loop is the union of the graphs of
    its locations, each as it would be made alone: it does not depend
    on what was queried before, and processing the same locations in
    another order gives the same graph. *)
Theorem main_graph_union ep (locations : list str) log :
  (main ep locations log).1 = ⋃ (CityMain.location_graph ep <$> locations)
  ∧ ∀ locations' log',
      locations ≡ₚ locations' →
      (main ep locations' log').1 = (main ep locations log).1.
Proof.
  split; [apply main_value|].
  intros locations' log' Hperm. rewrite !main_value.
  apply set_eq. intros t. rewrite !elem_of_union_list.
  setoid_rewrite list_elem_of_fmap. by setoid_rewrite Hperm.
Qed.

Lemma main_graph_union_witness :
  (main Samples.endpoints [py "Madrid"; py "Barcelona"] []).1
  = (main Samples.endpoints [py "Barcelona"; py "Madrid"]
       [SameAsQuery (py "x")]).1.
Proof.
  apply (proj2 (main_graph_union Samples.endpoints
                  [py "Barcelona"; py "Madrid"] [SameAsQuery (py "x")])).
  apply Permutation_swap.
Defined.

Lemma truthy_Some (v : option str) :
  truthy v = true ↔ ∃ x, v = Some x ∧ x ≠ [].
Proof.
  destruct v as [[|c x]|]; simpl; split; try done.
  - by intros (x & [= <-] & ?).
  - intros _. by eexists.
  - by intros (x & ? & ?).
Qed.

Lemma elem_of_sameas_triples (city : term) (v : option str) (t : triple) :
  t ∈ sameas_triples city v
  ↔ ∃ x, v = Some x ∧ x ≠ [] ∧ t = (city, OWL_sameAs, URIRef x).
Proof.
  unfold sameas_triples. destruct (truthy v) eqn:Hv.
  - apply truthy_Some in Hv as (x & -> & Hx). rewrite list_elem_of_singleton.
    split; [intros ->; by exists x|]. by intros (y & [= <-] & _ & ->).
  - split; [by intros ?%elem_of_nil|]. intros (x & -> & Hx & _).
    assert (truthy (Some x) = true) by (apply truthy_Some; by exists x).
    congruence.
Qed.

(** The sameAs triples of the graph of a location. *)
Lemma create_poi_city_triples_sameas_iff poi_uri type_string info t :
  t ∈ create_poi_city_triples poi_uri type_string info
  ∧ predicate t = OWL_sameAs
  ↔ ∃ v, v ≠ []
         ∧ (wikidata_uri info = Some v ∨ geonames_uri info = Some v)
         ∧ t = (URIRef (dbpedia_uri info), OWL_sameAs, URIRef v).
Proof.
  unfold create_poi_city_triples, graph_of.
  rewrite create_poi_city_triples_added. cbv zeta.
  rewrite elem_of_list_to_set, !elem_of_app, !elem_of_sameas_triples.
  split.
  - intros [[Hin|[(v & ? & ? & ->)|[(v & ? & ? & ->)|Hin]]] Hp].
    + exfalso. revert Hp. apply list_elem_of_In in Hin. simpl in Hin.
      destruct Hin as [<- | [<- | [<- | [<- | [<- | []]]]]];
        unfold predicate; simpl; differ.
    + exists v. auto.
    + exists v. auto.
    + exfalso. revert Hp. apply list_elem_of_singleton in Hin as ->.
      unfold predicate; simpl; differ.
  - intros (v & Hv & [Hw|Hg] & ->); (split; [|done]).
    + right. left. by exists v.
    + right. right. left. by exists v.
Qed.

Lemma size_list_to_set_le (l : list triple) :
  (size (list_to_set l : Graph) ≤ length l)%nat.
Proof.
  induction l as [|t l IH].
  - change (size (∅ : Graph) ≤ 0)%nat. by rewrite size_empty.
  - change (size ({[t]} ∪ list_to_set l : Graph) ≤ S (length l))%nat.
    rewrite size_union_alt, size_singleton.
    assert (size (list_to_set l ∖ {[t]} : Graph)
            ≤ size (list_to_set l : Graph))%nat.
    { apply subseteq_size. intros x [Hx _]%elem_of_difference. done. }
    lia.
Qed.

(** X6. In the graph of a location the [owl:sameAs] triples are exactly
    those from the city node to the Wikidata URI and to the GeoNames
    URI of the record, each only when it is present and not the empty
    string. The graph has at most eight triples. *)
Theorem create_poi_city_triples_sameas
    (poi_uri type_string : str) (info : LocationInfo) :
  (∀ t, t ∈ create_poi_city_triples poi_uri type_string info
        ∧ predicate t = OWL_sameAs
        ↔ ∃ v, v ≠ []
               ∧ (wikidata_uri info = Some v ∨ geonames_uri info = Some v)
               ∧ t = (URIRef (dbpedia_uri info), OWL_sameAs, URIRef v))
  ∧ (size (create_poi_city_triples poi_uri type_string info) ≤ 8)%nat.
Proof.
  split; [intros t; apply create_poi_city_triples_sameas_iff|].
  unfold create_poi_city_triples, graph_of.
  etrans; [apply size_list_to_set_le|].
  rewrite create_poi_city_triples_added. cbv zeta.
  rewrite !length_app. unfold sameas_triples.
  destruct (truthy _), (truthy _); simpl; lia.
Qed.

Lemma contains_nonempty (needle hay : str) :
  needle ≠ [] → contains needle hay = true → hay ≠ [].
Proof. intros Hn Hc ->. destruct needle; [done|]. simpl in Hc. done. Qed.

(** X7. For the record of a location, the graph holds as many
    [owl:sameAs] triples as the record has URIs: none, one or two. A
    Wikidata URI and a GeoNames URI that are both present give two
    distinct triples. *)
Theorem link_poi_to_city_sameas_count ep (location poi_uri type_string : str)
    log :
  let info := (link_poi_to_city ep location log).1 in
  let g := create_poi_city_triples poi_uri type_string info in
  size (filter (λ t, predicate t = OWL_sameAs) g)
  = (match wikidata_uri info with Some _ => 1 | None => 0 end
     + match geonames_uri info with Some _ => 1 | None => 0 end)%nat.
Proof.
  cbv zeta.
  destruct (link_poi_to_city_wikidata_consistent ep location log)
    as (_ & Hwd & _).
  destruct (link_poi_to_city_geonames ep location log) as (Hgeo & _).
  assert (∀ w g,
    wikidata_uri (link_poi_to_city ep location log).1 = Some w →
    geonames_uri (link_poi_to_city ep location log).1 = Some g → w ≠ g)
    as Hne.
  { intros w g. rewrite link_poi_to_city_unfold. cbv zeta. simpl.
    intros Hw [_ Hg]%choose_geonames_Some. congruence. }
  cbv zeta in Hwd, Hgeo.
  set (info := (link_poi_to_city ep location log).1) in *.
  set (city := URIRef (dbpedia_uri info)).
  assert (∀ X : Graph,
    (∀ t, t ∈ X ↔ ∃ v, v ≠ []
                       ∧ (wikidata_uri info = Some v
                          ∨ geonames_uri info = Some v)
                       ∧ t = (city, OWL_sameAs, URIRef v)) →
    filter (λ t, predicate t = OWL_sameAs)
      (create_poi_city_triples poi_uri type_string info) = X) as Hset.
  { intros X HX. apply set_eq. intros t.
    rewrite elem_of_filter, HX. unfold city.
    rewrite <-(create_poi_city_triples_sameas_iff poi_uri type_string).
    tauto. }
  destruct (wikidata_uri info) as [w|] eqn:Ew,
           (geonames_uri info) as [g|] eqn:Eg.
  - destruct (Hwd w eq_refl) as (_ & Hw & _).
    destruct (Hgeo g eq_refl) as (_ & Hg).
    apply contains_nonempty in Hw; [|done].
    apply contains_nonempty in Hg; [|done].
    rewrite (Hset ({[(city, OWL_sameAs, URIRef w)]}
                   ∪ {[(city, OWL_sameAs, URIRef g)]})).
    + rewrite size_union, !size_singleton; [done|].
      apply disjoint_singleton_l. rewrite elem_of_singleton.
      intros [= ?]. by apply (Hne w g).
    + intros t. rewrite elem_of_union, !elem_of_singleton. split.
      * intros [-> | ->]; [exists w|exists g]; auto.
      * intros (v & _ & [[= <-]|[= <-]] & ->); auto.
  - destruct (Hwd w eq_refl) as (_ & Hw & _).
    apply contains_nonempty in Hw; [|done].
    rewrite (Hset {[(city, OWL_sameAs, URIRef w)]}).
    + by rewrite size_singleton.
    + intros t. rewrite elem_of_singleton. split.
      * intros ->. exists w. auto.
      * by intros (v & _ & [[= <-]|[=]] & ->).
  - destruct (Hgeo g eq_refl) as (_ & Hg).
    apply contains_nonempty in Hg; [|done].
    rewrite (Hset {[(city, OWL_sameAs, URIRef g)]}).
    + by rewrite size_singleton.
    + intros t. rewrite elem_of_singleton. split.
      * intros ->. exists g. auto.
      * by intros (v & _ & [[=]|[= <-]] & ->).
  - rewrite (Hset ∅); [by rewrite size_empty|].
    intros t. rewrite elem_of_empty. split; [done|].
    by intros (v & _ & [[=]|[=]] & _).
Qed.

End CityLinkerExtra.

(** ** The category pipeline, continued *)

Module TouristExtra.
Import TouristKG TouristMain Spec ReProofs TouristKGProofs.

Lemma replace_elem_of old new (s : str) c :
  c ≠ new → c ∈ replace old new s → c ∈ s.
Proof.
  intros Hc. unfold replace. rewrite list_elem_of_fmap.
  intros (x & -> & Hx). by case_decide.
Qed.

Lemma replace_nonempty old new (s : str) : s ≠ [] → replace old new s ≠ [].
Proof. by destruct s. Qed.

Lemma separator_length (sep : str) : separator sep → length sep = 4%nat.
Proof. by intros [-> | ->]. Qed.

Lemma omap_length_le {A B} (f : A → option B) (l : list A) :
  (length (omap f l) ≤ length l)%nat.
Proof.
  induction l as [|x l IH]; [done|].
  change (omap f (x :: l))
    with (match f x with Some y => y :: omap f l | None => omap f l end).
  destruct (f x); simpl; lia.
Qed.

(** What a successful parse returns, in terms of the segments. *)
Lemma parse_category_uri_cases (uri : str) :
  parse_category_uri uri = (None, None)
  ∨ ∃ T sep L R,
      category_shape uri T sep L R
      ∧ parse_category_uri uri
        = (Some (replace underscore space T),
           Some (replace underscore space L)).
Proof.
  unfold parse_category_uri.
  destruct (re_match CATEGORY_REGEX uri) as [m|] eqn:Hm; [|by left].
  right. apply category_match_shape in Hm
    as (T & sep & L & R & Hshape & _ & -> & ->).
  by exists T, sep, L, R.
Qed.

(** X8. The parser returns either (None, None) or two labels at once.
    Labels are never empty, hold no underscore and no line feed, and
    together with the namespace prefix and the four characters of the
    separator they fit in the URI. *)
Theorem parse_category_uri_labels (uri : str) :
  parse_category_uri uri = (None, None)
  ∨ ∃ t l,
      parse_category_uri uri = (Some t, Some l)
      ∧ t ≠ [] ∧ l ≠ []
      ∧ (underscore ∉ t) ∧ (underscore ∉ l)
      ∧ (newline ∉ t) ∧ (newline ∉ l)
      ∧ (length CATEGORY_PREFIX + length t + 4 + length l ≤ length uri)%nat.
Proof.
  destruct (parse_category_uri_cases uri)
    as [?|(T & sep & L & R & Hshape & ->)]; [by left|].
  right. destruct Hshape as (-> & Hsep & HT & HL & HTl & HLl).
  exists (replace underscore space T), (replace underscore space L).
  split; [done|].
  split; [by apply replace_nonempty|]. split; [by apply replace_nonempty|].
  split; [apply replace_not_elem; differ|].
  split; [apply replace_not_elem; differ|].
  split; [intros ?%replace_elem_of; [done|differ]|].
  split; [intros ?%replace_elem_of; [done|differ]|].
  rewrite !length_app, !replace_length, (separator_length sep) by done. lia.
Qed.

(** X9. The test [if type_str and location_str] of the main loop drops
    exactly the pairs whose category URI does not parse: a pair whose
    URI parses gives a record with the POI, the category URI and the
    two labels, and a pair that gives no record has an unparsable
    URI. No more records are collected than there are pairs. *)
Theorem record_of_matches :
  (∀ poi_uri category_uri : str,
     match record_of (poi_uri, category_uri) with
     | Some row =>
         POI row = poi_uri ∧ Category row = category_uri
         ∧ parse_category_uri category_uri
           = (Some (Type_ row), Some (Location row))
         ∧ Type_ row ≠ [] ∧ Location row ≠ []
     | None => parse_category_uri category_uri = (None, None)
     end)
  ∧ (∀ pairs_of categories,
       (length (all_records pairs_of categories)
        ≤ length (categories ≫= pairs_of))%nat).
Proof.
  split.
  - intros poi_uri category_uri. unfold record_of.
    destruct (parse_category_uri_labels category_uri)
      as [->|(t & l & -> & Ht & Hl & _)]; [done|].
    destruct t as [|c t]; [done|]. destruct l as [|d l]; [done|]. done.
  - intros pairs_of categories. unfold all_records.
    induction categories as [|cat rest IH]; [done|].
    rewrite !bind_cons, !length_app.
    pose proof (omap_length_le record_of (pairs_of cat)). lia.
Qed.

Lemma replace_back (s : str) :
  replace space underscore (replace underscore space s)
  = replace space underscore s.
Proof.
  unfold replace. rewrite <-list_fmap_compose. apply list_fmap_ext.
  intros _ c _. simpl. repeat case_decide; simplify_eq; done.
Qed.

Lemma build_kg_unfold ep (df : list Row) :
  build_kg ep df = list_to_set (df ≫= λ row, added (add_row ep row)).
Proof. unfold build_kg, added. by rewrite build_kg_adds_run. Qed.

Lemma elem_of_build_kg ep (df : list Row) (t : triple) :
  t ∈ build_kg ep df ↔ ∃ row, row ∈ df ∧ t ∈ added (add_row ep row).
Proof.
  rewrite build_kg_unfold, elem_of_list_to_set, list_elem_of_bind.
  split; intros (row & ? & ?); by exists row.
Qed.

(** The triples of a row: four about the POI and its city, then, when
    the POI has a Wikidata link, three more and the chain. *)
Lemma add_row_added ep (row : Row) :
  added (add_row ep row)
  = [(URIRef (POI row), RDF_type, ns_term EX (py "POI"));
     (URIRef (POI row), ns_term EX (py "locatedIn"), city_node row);
     (URIRef (POI row), ns_term EX (py "typeString"),
      plain_literal (Type_ row));
     (city_node row, RDF_type, ns_term EX (py "City"))]
    ++ match get_wikidata_mapping ep (POI row) with
       | [] => []
       | wd0 :: _ =>
           [(URIRef (POI row), OWL_sameAs, URIRef wd0);
            (URIRef (POI row), ns_term EX (py "hasType"),
             type_node (Type_ row));
            (type_node (Type_ row), RDF_type,
             ns_term EX (py "AttractionType"))]
           ++ chain (type_node (Type_ row)
                     :: supers (get_wikidata_type_hierarchy ep wd0))
       end.
Proof.
  unfold added, add_row, mbind, State_bind, add.
  destruct (get_wikidata_mapping ep (POI row)) as [|wd0 wd_links]; [done|].
  by rewrite add_hierarchy_run.
Qed.

(** X10. A record collected from a category URI is placed in the city
    whose DBpedia resource is named by the location segment of the URI,
    spaces turned into underscores: turning the underscores into spaces
    when parsing and back when building the graph loses nothing. The
    type node is named by the type segment in the same way. *)
Theorem record_city_node ep (poi_uri category_uri : str) (row : Row) :
  record_of (poi_uri, category_uri) = Some row →
  ∃ T sep L R,
    category_shape category_uri T sep L R
    ∧ city_node row = URIRef (DBR ++ replace space underscore L)
    ∧ type_node (Type_ row) = URIRef (EX ++ replace space underscore T)
    ∧ (URIRef poi_uri, ns_term EX (py "locatedIn"),
       URIRef (DBR ++ replace space underscore L)) ∈ build_kg ep [row].
Proof.
  unfold record_of.
  destruct (parse_category_uri_cases category_uri)
    as [->|(T & sep & L & R & Hshape & ->)]; [done|].
  destruct (truthy _ && truthy _); [|done]. intros [= <-].
  exists T, sep, L, R. split; [done|].
  unfold city_node, type_node, ns_term. simpl. rewrite !replace_back.
  split; [done|]. split; [done|].
  apply elem_of_build_kg. eexists. split; [apply list_elem_of_here|].
  rewrite add_row_added. unfold city_node, ns_term. simpl.
  rewrite replace_back. apply list_elem_of_further, list_elem_of_here.
Qed.

Lemma record_city_node_witness :
  ∃ T sep L R,
    category_shape (Category TouristSamples.row) T sep L R
    ∧ city_node TouristSamples.row
      = URIRef (DBR ++ replace space underscore L)
    ∧ type_node (Type_ TouristSamples.row)
      = URIRef (EX ++ replace space underscore T)
    ∧ (URIRef TouristSamples.sagrada, ns_term EX (py "locatedIn"),
       URIRef (DBR ++ replace space underscore L))
      ∈ build_kg TouristSamples.endpoints [TouristSamples.row].
Proof.
  apply (record_city_node TouristSamples.endpoints TouristSamples.sagrada
           (Category TouristSamples.row)).
  vm_compute. reflexivity.
Defined.

(** X11. The graph of a data frame is the union of the graphs of its
    parts: rows can be processed in any order, and a row met twice
    adds nothing. *)
Theorem build_kg_union ep :
  (∀ df1 df2 : list Row,
     build_kg ep (df1 ++ df2) = build_kg ep df1 ∪ build_kg ep df2)
  ∧ (∀ df df' : list Row, df ≡ₚ df' → build_kg ep df = build_kg ep df')
  ∧ (∀ df : list Row, build_kg ep (df ++ df) = build_kg ep df).
Proof.
  assert (∀ df1 df2 : list Row,
    build_kg ep (df1 ++ df2) = build_kg ep df1 ∪ build_kg ep df2) as Happ.
  { intros df1 df2. rewrite !build_kg_unfold, bind_app.
    apply list_to_set_app_L. }
  split; [done|]. split.
  - intros df df' Hperm. rewrite !build_kg_unfold. by rewrite Hperm.
  - intros df. rewrite Happ. apply (idemp_L (∪)).
Qed.

Lemma build_kg_union_witness :
  build_kg TouristSamples.endpoints
    [TouristSamples.row; TouristSamples.other_row]
  = build_kg TouristSamples.endpoints
      [TouristSamples.other_row; TouristSamples.row].
Proof.
  apply (proj1 (proj2 (build_kg_union TouristSamples.endpoints))).
  apply Permutation_swap.
Defined.

(** X12. A row whose POI has no Wikidata link adds its four base
    triples and nothing else; so in the graph of a data frame none of
    whose POIs has a link there is no sameAs, hasType or subClassOf
    triple. *)
Theorem build_kg_without_links ep (df : list Row) :
  (∀ row, row ∈ df → get_wikidata_mapping ep (POI row) = []) →
  ∀ t, t ∈ build_kg ep df →
    ∃ row, row ∈ df
      ∧ (t = (URIRef (POI row), RDF_type, ns_term EX (py "POI"))
         ∨ t = (URIRef (POI row), ns_term EX (py "locatedIn"), city_node row)
         ∨ t = (URIRef (POI row), ns_term EX (py "typeString"),
                plain_literal (Type_ row))
         ∨ t = (city_node row, RDF_type, ns_term EX (py "City")))
      ∧ predicate t ≠ OWL_sameAs
      ∧ predicate t ≠ ns_term EX (py "hasType")
      ∧ predicate t ≠ RDFS_subClassOf.
Proof.
  intros Hnone t (row & Hrow & Ht)%elem_of_build_kg.
  rewrite add_row_added, (Hnone row Hrow), app_nil_r in Ht.
  exists row. split; [done|].
  apply list_elem_of_In in Ht. simpl in Ht.
  destruct Ht as [<- | [<- | [<- | [<- | []]]]];
    (split; [tauto|]); unfold predicate; simpl;
    (split; [differ|split; differ]).
Qed.

Lemma build_kg_without_links_witness :
  ∃ row, row ∈ [TouristSamples.other_row]
    ∧ ((TouristSamples.city_madrid, RDF_type, ns_term EX (py "City"))
         = (URIRef (POI row), RDF_type, ns_term EX (py "POI"))
       ∨ (TouristSamples.city_madrid, RDF_type, ns_term EX (py "City"))
         = (URIRef (POI row), ns_term EX (py "locatedIn"), city_node row)
       ∨ (TouristSamples.city_madrid, RDF_type, ns_term EX (py "City"))
         = (URIRef (POI row), ns_term EX (py "typeString"),
            plain_literal (Type_ row))
       ∨ (TouristSamples.city_madrid, RDF_type, ns_term EX (py "City"))
         = (city_node row, RDF_type, ns_term EX (py "City")))
    ∧ predicate (TouristSamples.city_madrid, RDF_type,
                 ns_term EX (py "City")) ≠ OWL_sameAs
    ∧ predicate (TouristSamples.city_madrid, RDF_type,
                 ns_term EX (py "City")) ≠ ns_term EX (py "hasType")
    ∧ predicate (TouristSamples.city_madrid, RDF_type,
                 ns_term EX (py "City")) ≠ RDFS_subClassOf.
Proof.
  apply (build_kg_without_links TouristSamples.endpoints
           [TouristSamples.other_row]).
  - intros row ->%list_elem_of_singleton. vm_compute. reflexivity.
  - apply elem_of_build_kg. exists TouristSamples.other_row.
    split; [apply list_elem_of_here|].
    apply (bool_decide_unpack _). vm_compute. exact I.
Defined.

(** X13. Of the Wikidata links of a POI only the first is used: two
    endpoints that agree on the first link of every POI and on the
    hierarchies give the same graph, whatever further links they
    return. *)
Theorem build_kg_first_link_only ep ep' (df : list Row) :
  (∀ poi, head (get_wikidata_mapping ep poi)
          = head (get_wikidata_mapping ep' poi)) →
  (∀ wd, get_wikidata_type_hierarchy ep wd
         = get_wikidata_type_hierarchy ep' wd) →
  build_kg ep df = build_kg ep' df.
Proof.
  intros Hhead Hhier. rewrite !build_kg_unfold. f_equal.
  induction df as [|row df IH]; [done|]. rewrite !bind_cons, IH. f_equal.
  rewrite !add_row_added. specialize (Hhead (POI row)).
  destruct (get_wikidata_mapping ep (POI row)),
           (get_wikidata_mapping ep' (POI row)); simplify_eq/=; [done|].
  by rewrite Hhier.
Qed.

Lemma build_kg_first_link_only_witness :
  build_kg TouristSamples.endpoints [TouristSamples.row]
  = build_kg TouristSamples.more_links [TouristSamples.row].
Proof.
  apply build_kg_first_link_only.
  - intros poi. unfold TouristSamples.endpoints, TouristSamples.more_links.
    simpl. by destruct (decide (poi = TouristSamples.sagrada)).
  - reflexivity.
Defined.

(** *** The chain as a path *)

Lemma chain_reaches (g : Graph) (T : term) (S : list term) :
  (∀ t, t ∈ chain (T :: S) → t ∈ g) →
  ∀ s, s ∈ S → rtc (λ a b, (a, RDFS_subClassOf, b) ∈ g) T s.
Proof.
  revert T. induction S as [|b S IH]; intros T Hsub s Hs.
  - by apply elem_of_nil in Hs.
  - rewrite chain_cons in Hsub.
    assert (rtc (λ a b, (a, RDFS_subClassOf, b) ∈ g) T b) as Hb.
    { apply rtc_once, Hsub, list_elem_of_here. }
    apply elem_of_cons in Hs as [->|Hs]; [done|].
    etrans; [exact Hb|]. apply IH; [|done].
    intros t Ht. by apply Hsub, list_elem_of_further.
Qed.

(** X14. Chaining keeps every retrieved superclass connected to the
    base type: in the graph, each superclass of the hierarchy of a row
    is reached from the type node of the row by following
    [rdfs:subClassOf] links. *)
Theorem build_kg_supers_reachable ep (df : list Row) (row : Row)
    (wd0 : str) (wd_links : list str) (s : term) :
  row ∈ df →
  get_wikidata_mapping ep (POI row) = wd0 :: wd_links →
  s ∈ supers (get_wikidata_type_hierarchy ep wd0) →
  rtc (λ a b, (a, RDFS_subClassOf, b) ∈ build_kg ep df)
    (type_node (Type_ row)) s.
Proof.
  intros Hrow Hmap Hs. eapply chain_reaches; [|exact Hs].
  intros t Ht. apply elem_of_build_kg. exists row. split; [done|].
  rewrite add_row_added, Hmap. rewrite !elem_of_app. auto.
Qed.

Lemma build_kg_supers_reachable_witness :
  rtc (λ a b, (a, RDFS_subClassOf, b)
              ∈ build_kg TouristSamples.endpoints
                  [TouristSamples.other_row; TouristSamples.row])
    (type_node (Type_ TouristSamples.row))
    (URIRef (py "http://www.wikidata.org/entity/Q24398318")).
Proof.
  apply (build_kg_supers_reachable TouristSamples.endpoints _
           TouristSamples.row TouristSamples.q48435 []).
  - apply list_elem_of_further, list_elem_of_here.
  - vm_compute. reflexivity.
  - apply (bool_decide_unpack _). vm_compute. exact I.
Defined.

Lemma chain_objects (T : term) (S : list term) (t : triple) :
  t ∈ chain (T :: S) → object t ∈ S.
Proof.
  revert T. induction S as [|b S IH]; intros T.
  - by intros ?%elem_of_nil.
  - rewrite chain_cons. intros [->|Ht]%elem_of_cons.
    + apply list_elem_of_here.
    + apply list_elem_of_further. by apply (IH b).
Qed.

Lemma chain_NoDup (T : term) (S : list term) :
  NoDup S → NoDup (chain (T :: S)).
Proof.
  intros HS. revert T. induction HS as [|b S Hb HS IH]; intros T.
  - constructor.
  - rewrite chain_cons. constructor; [|apply IH].
    intros Hin%chain_objects. done.
Qed.

(** X15. The hierarchy loop leaves at most one subclass triple per
    result in the graph, and exactly one per result when the results
    are distinct nodes; repeated results can collapse into fewer
    triples. *)
Theorem add_hierarchy_size (hierarchy : list (str * str)) (T : term) :
  (size (graph_of (added (add_hierarchy hierarchy T))) ≤ length hierarchy)%nat
  ∧ (NoDup (supers hierarchy) →
     size (graph_of (added (add_hierarchy hierarchy T))) = length hierarchy).
Proof.
  unfold added, graph_of. rewrite add_hierarchy_run. simpl.
  assert (length (chain (T :: supers hierarchy)) = length hierarchy) as Hlen.
  { rewrite chain_length. unfold supers. apply length_fmap. }
  split.
  - rewrite <-Hlen. apply CityLinkerExtra.size_list_to_set_le.
  - intros Hnd. rewrite <-Hlen. apply size_list_to_set. by apply chain_NoDup.
Qed.

Lemma add_hierarchy_size_witness :
  size (graph_of (added (add_hierarchy
                           [(py "A", py "a"); (py "B", py "b")]
                           (URIRef (py "T")))))
  = length [(py "A", py "a"); (py "B", py "b")].
Proof.
  apply add_hierarchy_size.
  apply (bool_decide_unpack _). vm_compute. exact I.
Defined.

End TouristExtra.

(** ** The plots *)

Module VizExtra.
Import Viz.

Lemma split_no_occurrence (sep s : str) :
  contains sep s = false → split sep s = [s].
Proof.
  unfold split. induction s as [|x s IH]; [done|]. simpl.
  intros [Hsw Hc]%orb_false_iff. simpl in Hsw. rewrite Hsw.
  by rewrite IH.
Qed.

Lemma contains_char (c : char) (s : str) : contains [c] s = true ↔ c ∈ s.
Proof.
  rewrite contains_spec. split.
  - intros (a & b & ->). rewrite elem_of_app. right. left.
  - intros (a & b & ->)%list_elem_of_split. by exists a, b.
Qed.

Lemma contains_char_false (c : char) (s : str) :
  contains [c] s = false ↔ c ∉ s.
Proof.
  rewrite <-contains_char. by destruct (contains [c] s).
Qed.

Lemma split_char_cons (c x : char) (s : str) :
  split [c] (x :: s)
  = if decide (c = x) then [] :: split [c] s
    else match split [c] s with
         | seg :: rest => (x :: seg) :: rest
         | [] => [[x]]
         end.
Proof.
  unfold split. simpl. case_decide as Hc.
  - by rewrite bool_decide_true.
  - by rewrite bool_decide_false.
Qed.

(** Splitting at a character: without the character there is one
    segment; with it, the last segment is what follows its last
    occurrence. *)
Lemma split_char_last (c : char) (s : str) :
  c ∈ s →
  ∃ pre l front, s = pre ++ c :: l ∧ (c ∉ l)
                 ∧ split [c] s = front ++ [l] ∧ front ≠ [].
Proof.
  induction s as [|x s IH]; [by intros ?%elem_of_nil|].
  intros Hin. rewrite split_char_cons.
  destruct (decide (c ∈ s)) as [Hs|Hs].
  - destruct (IH Hs) as (pre & l & front & -> & Hl & -> & Hf).
    exists (x :: pre), l. case_decide.
    + by exists ([] :: front).
    + destruct front as [|seg front]; [done|]. by exists ((x :: seg) :: front).
  - apply elem_of_cons in Hin as [->|?]; [|done].
    rewrite decide_True by done.
    exists [], s, [[]]. repeat split; try done.
    by rewrite (split_no_occurrence [x] s) by by apply contains_char_false.
Qed.

Lemma last_occurrence_unique (c : char) (pre pre' l l' : str) :
  pre ++ c :: l = pre' ++ c :: l' → c ∉ l → c ∉ l' → l = l'.
Proof.
  revert pre'. induction pre as [|x pre IH]; intros [|y pre'] Heq Hl Hl'.
  - by simplify_eq/=.
  - simplify_eq/=. destruct Hl. rewrite elem_of_app. right. left.
  - simplify_eq/=. destruct Hl'. rewrite elem_of_app. right. left.
  - simplify_eq/=. by apply (IH pre').
Qed.

(** [s.split(c)[-1]]: the whole string when [c] does not occur, else
    what follows the last occurrence. *)
Lemma last_of_split_char (c : char) (s : str) :
  (c ∉ s → last_of (split [c] s) = s)
  ∧ (∀ pre l, s = pre ++ c :: l → c ∉ l → last_of (split [c] s) = l).
Proof.
  split.
  - intros Hs. by rewrite split_no_occurrence by by apply contains_char_false.
  - intros pre l -> Hl.
    destruct (split_char_last c (pre ++ c :: l))
      as (pre' & l' & front & Heq & Hl' & -> & _).
    { rewrite elem_of_app. right. left. }
    unfold last_of. rewrite last_snoc. simpl. symmetry.
    by apply (last_occurrence_unique c pre pre').
Qed.

(** X16. The label of an edge is the local name of its predicate: what
    follows the last [#] when the predicate has one, else what follows
    the last [/], else the whole predicate. The label holds no [#] in
    the first case and no [/] in the second. *)
Theorem edge_label_local_name (p : str) :
  (hash ∈ p →
   ∃ pre, p = pre ++ hash :: edge_label p ∧ hash ∉ edge_label p)
  ∧ (hash ∉ p → slash ∈ p →
     ∃ pre, p = pre ++ slash :: edge_label p ∧ slash ∉ edge_label p)
  ∧ (hash ∉ p → slash ∉ p → edge_label p = p).
Proof.
  unfold edge_label. change (py "#") with [hash]. change (py "/") with [slash].
  split; [|split].
  - intros Hin. rewrite (proj2 (contains_char hash p)) by done.
    destruct (split_char_last hash p Hin) as (pre & l & front & -> & Hl & _).
    exists pre. by rewrite (proj2 (last_of_split_char hash _) pre l).
  - intros Hh Hin. rewrite (proj2 (contains_char_false hash p)) by done.
    destruct (split_char_last slash p Hin) as (pre & l & front & -> & Hl & _).
    exists pre. by rewrite (proj2 (last_of_split_char slash _) pre l).
  - intros Hh Hs. rewrite (proj2 (contains_char_false hash p)) by done.
    by apply last_of_split_char.
Qed.

Lemma edge_label_local_name_witness :
  ∃ pre, py "http://www.w3.org/2002/07/owl#sameAs"
         = pre ++ hash :: edge_label (py "http://www.w3.org/2002/07/owl#sameAs")
         ∧ hash ∉ edge_label (py "http://www.w3.org/2002/07/owl#sameAs").
Proof.
  apply (proj1 (edge_label_local_name
                  (py "http://www.w3.org/2002/07/owl#sameAs"))).
  apply (bool_decide_unpack _). vm_compute. exact I.
Defined.

Lemma startswith_app (p q s : str) :
  startswith (p ++ q) (p ++ s) = startswith q s.
Proof.
  induction p as [|c p IH]; [done|]. simpl. by rewrite bool_decide_true.
Qed.

Lemma startswith_app_false (p q s : str) :
  startswith p s = false → startswith (p ++ q) s = false.
Proof.
  revert s. induction p as [|c p IH]; intros [|d s]; simpl; try done.
  destruct (bool_decide (c = d)); [apply IH|done].
Qed.

Lemma startswith_http (p s : str) :
  startswith (py "http" ++ p) s = true → contains (py "http") s = true.
Proof.
  intros [t ->]%startswith_spec. apply contains_spec.
  exists [], (p ++ t). by rewrite <-app_assoc.
Qed.

(** X17. Outside the DBpedia resource namespace [short_label] leaves a
    string without [http] as it is, and cuts any other string down to
    what follows its last slash (a Wikidata URI to its QID). *)
Theorem short_label_outside_dbpedia (uri : str) :
  (contains (py "http") uri = false → short_label uri = uri)
  ∧ (startswith (py "http://dbpedia.org/resource/") uri = false →
     contains (py "http") uri = true →
     (∀ pre l, uri = pre ++ slash :: l → slash ∉ l → short_label uri = l)
     ∧ (slash ∉ uri → short_label uri = uri)).
Proof.
  unfold short_label. split.
  - intros Hno.
    destruct (startswith (py "http://dbpedia.org/resource/Category:") uri)
      eqn:H1; [apply (startswith_http (py "://dbpedia.org/resource/Category:"))
                 in H1; congruence|].
    destruct (startswith (py "http://dbpedia.org/resource/") uri)
      eqn:H2; [apply (startswith_http (py "://dbpedia.org/resource/"))
                 in H2; congruence|].
    destruct (startswith (py "http://www.wikidata.org/entity/") uri)
      eqn:H3; [apply (startswith_http (py "://www.wikidata.org/entity/"))
                 in H3; congruence|].
    destruct (startswith (py "http://example.org/kg/") uri)
      eqn:H4; [apply (startswith_http (py "://example.org/kg/"))
                 in H4; congruence|].
    by rewrite Hno.
  - intros Hdb Hhttp.
    change (py "http://dbpedia.org/resource/Category:")
      with (py "http://dbpedia.org/resource/" ++ py "Category:").
    rewrite (startswith_app_false (py "http://dbpedia.org/resource/")
               (py "Category:") uri Hdb), Hdb, Hhttp.
    change (py "/") with [slash]. simpl negb.
    assert ((∀ pre l, uri = pre ++ slash :: l → slash ∉ l →
               last_of (split [slash] uri) = l)
            ∧ (slash ∉ uri → last_of (split [slash] uri) = uri)) as [Hl Hn].
    { destruct (last_of_split_char slash uri) as [? ?]. by split. }
    destruct (startswith (py "http://www.wikidata.org/entity/") uri).
    { split; [exact Hl|exact Hn]. }
    destruct (startswith (py "http://example.org/kg/") uri).
    { split; [exact Hl|exact Hn]. }
    split; [exact Hl|exact Hn].
Qed.

Lemma short_label_outside_dbpedia_witness :
  short_label (py "http://www.wikidata.org/entity/" ++ py "Q1492")
  = py "Q1492".
Proof.
  apply (proj2 (short_label_outside_dbpedia
                  (py "http://www.wikidata.org/entity/" ++ py "Q1492")))
    with (pre := py "http://www.wikidata.org/entity").
  - vm_compute. reflexivity.
  - vm_compute. reflexivity.
  - vm_compute. reflexivity.
  - apply (bool_decide_unpack _). vm_compute. exact I.
Defined.

Lemma replace_inverse (s : str) :
  underscore ∉ s →
  replace underscore space (replace space underscore s) = s.
Proof.
  intros Hs. unfold replace. rewrite <-list_fmap_compose.
  rewrite <-(list_fmap_id s) at 2. apply list_fmap_ext.
  intros i c Hc. simpl. apply list_elem_of_lookup_2 in Hc.
  repeat case_decide; simplify_eq; done.
Qed.

Lemma split_resource (name : str) :
  split (py "resource/") (py "http://dbpedia.org/resource/" ++ name)
  = py "http://dbpedia.org/" :: split (py "resource/") name.
Proof. reflexivity. Qed.

(** The label of a DBpedia resource that is not a category. *)
Lemma short_label_dbpedia_resource (name : str) :
  startswith (py "Category:") name = false →
  contains (py "resource/") name = false →
  short_label (py "http://dbpedia.org/resource/" ++ name)
  = replace underscore space name.
Proof.
  intros Hcat Hres. unfold short_label.
  assert (startswith (py "http://dbpedia.org/resource/Category:")
            (py "http://dbpedia.org/resource/" ++ name) = false) as ->.
  { change (py "http://dbpedia.org/resource/Category:")
      with (py "http://dbpedia.org/resource/" ++ py "Category:").
    by rewrite startswith_app. }
  assert (startswith (py "http://dbpedia.org/resource/")
            (py "http://dbpedia.org/resource/" ++ name) = true) as ->.
  { apply startswith_spec. by eexists. }
  by rewrite split_resource, split_no_occurrence.
Qed.

(** X18. The label drawn for a city node is the location of the row it
    was built from: [short_label] undoes the underscores [build_kg] put
    in, provided the location holds no underscore of its own and its
    name does not start with [Category:] nor contain [resource/]. *)
Theorem short_label_city_node (row : TouristKG.Row) :
  underscore ∉ TouristKG.Location row →
  startswith (py "Category:")
    (replace space underscore (TouristKG.Location row)) = false →
  contains (py "resource/")
    (replace space underscore (TouristKG.Location row)) = false →
  short_label (node_str (TouristMain.city_node row)) = TouristKG.Location row.
Proof.
  intros Hus Hcat Hres.
  unfold TouristMain.city_node, ns_term, node_str, TouristKG.DBR.
  rewrite short_label_dbpedia_resource by done. by apply replace_inverse.
Qed.

Lemma short_label_city_node_witness :
  short_label (node_str (TouristMain.city_node TouristSamples.row))
  = TouristKG.Location TouristSamples.row.
Proof.
  apply short_label_city_node.
  - apply (bool_decide_unpack _). vm_compute. exact I.
  - vm_compute. reflexivity.
  - vm_compute. reflexivity.
Defined.

Lemma elem_of_rdf_to_networkx_edges (g : Graph) (e : str * str) :
  e ∈ rdf_to_networkx_edges g ↔ ∃ t, t ∈ g ∧ uri_edge t = Some e.
Proof.
  unfold rdf_to_networkx_edges.
  rewrite elem_of_list_to_set, list_elem_of_omap.
  by setoid_rewrite elem_of_elements.
Qed.

(** X19. The plot of the graph of a location draws the links between
    URIs only: from the POI to its type and to the city, from the city
    to the City class and to the Wikidata and GeoNames URIs it is the
    same as. The literal facts (type string, location string and the
    verified flag) give no edge. *)
Theorem rdf_to_networkx_location_edges
    (poi_uri type_string : str) (info : CityLinker.LocationInfo) (s o : str) :
  (s, o) ∈ rdf_to_networkx_edges
             (CityLinker.create_poi_city_triples poi_uri type_string info)
  ↔ (s = poi_uri ∧ o = CityLinker.EX ++ type_string)
    ∨ (s = poi_uri ∧ o = CityLinker.dbpedia_uri info)
    ∨ (s = CityLinker.dbpedia_uri info ∧ o = CityLinker.EX ++ py "City")
    ∨ (s = CityLinker.dbpedia_uri info
       ∧ o ≠ []
       ∧ (CityLinker.wikidata_uri info = Some o
          ∨ CityLinker.geonames_uri info = Some o)).
Proof.
  rewrite elem_of_rdf_to_networkx_edges.
  pose (city := URIRef (CityLinker.dbpedia_uri info)).
  assert (∀ t,
    t ∈ CityLinker.create_poi_city_triples poi_uri type_string info
    ↔ t ∈ [(URIRef poi_uri, RDF_type, ns_term CityLinker.EX type_string);
           (URIRef poi_uri, ns_term CityLinker.EX (py "locatedIn"), city);
           (URIRef poi_uri, ns_term CityLinker.EX (py "typeString"),
            plain_literal type_string);
           (URIRef poi_uri, ns_term CityLinker.EX (py "locationString"),
            plain_literal (CityLinker.location_string info));
           (city, RDF_type, ns_term CityLinker.EX (py "City"))]
      ∨ (∃ x, CityLinker.wikidata_uri info = Some x ∧ x ≠ []
              ∧ t = (city, OWL_sameAs, URIRef x))
      ∨ (∃ x, CityLinker.geonames_uri info = Some x ∧ x ≠ []
              ∧ t = (city, OWL_sameAs, URIRef x))
      ∨ t ∈ [(city, ns_term CityLinker.EX (py "isVerifiedCity"),
              boolean_literal (CityLinker.is_city info))]) as Hg.
  { intros t. unfold CityLinker.create_poi_city_triples, graph_of.
    rewrite elem_of_list_to_set.
    rewrite CityLinkerProofs.create_poi_city_triples_added. cbv zeta.
    by rewrite !elem_of_app, !CityLinkerExtra.elem_of_sameas_triples. }
  split.
  - intros (t & Ht & He). apply Hg in Ht.
    destruct Ht as [Hin|[(v & ? & ? & ->)|[(v & ? & ? & ->)|Hin]]].
    + apply list_elem_of_In in Hin. simpl in Hin.
      destruct Hin as [<- | [<- | [<- | [<- | [<- | []]]]]];
        unfold uri_edge, ns_term in He; simpl in He; simplify_eq; auto.
    + unfold uri_edge in He. simpl in He. simplify_eq. auto 10.
    + unfold uri_edge in He. simpl in He. simplify_eq. auto 10.
    + apply list_elem_of_singleton in Hin as ->. done.
  - intros [[-> ->]|[[-> ->]|[[-> ->]|(-> & Ho & [Hw|Hg'])]]].
    + eexists. split; [apply Hg; left; apply list_elem_of_here|done].
    + eexists. split; [apply Hg; left;
                       apply list_elem_of_further, list_elem_of_here|done].
    + eexists. split; [apply Hg; left; do 4 apply list_elem_of_further;
                       apply list_elem_of_here|done].
    + exists (city, OWL_sameAs, URIRef o).
      split; [|done]. apply Hg. right. left. by exists o.
    + exists (city, OWL_sameAs, URIRef o).
      split; [|done]. apply Hg. right. right. left. by exists o.
Qed.

Lemma chain_subjects (T : term) (S : list term) (t : triple) :
  t ∈ Spec.chain (T :: S) → subject t ∈ T :: S.
Proof.
  revert T. induction S as [|b S IH]; intros T.
  - by intros ?%elem_of_nil.
  - rewrite TouristKGProofs.chain_cons. intros [->|Ht]%elem_of_cons.
    + apply list_elem_of_here.
    + apply list_elem_of_further. by apply (IH b).
Qed.

Lemma supers_URIRef (hierarchy : list (str * str)) (x : term) :
  x ∈ TouristKG.supers hierarchy → x = URIRef (node_str x).
Proof.
  unfold TouristKG.supers. rewrite list_elem_of_fmap. by intros (r & -> & _).
Qed.

(** The two namespaces differ, whatever follows them. *)
Lemma kg_namespace_not_dbpedia (a b : str) :
  TouristKG.EX ++ a ≠ TouristKG.DBR ++ b.
Proof.
  intros Heq. apply (f_equal (take 8)) in Heq. vm_compute in Heq.
  discriminate Heq.
Qed.

(** In the graph of a data frame, what a city node points to. *)
Lemma build_kg_city_successor ep (df : list TouristKG.Row) (city : str)
    (t : triple) :
  (∀ r, r ∈ df → TouristKG.POI r ≠ city) →
  (∀ r wd0 rest, r ∈ df →
     TouristKG.get_wikidata_mapping ep (TouristKG.POI r) = wd0 :: rest →
     URIRef city
     ∉ TouristKG.supers (TouristKG.get_wikidata_type_hierarchy ep wd0)) →
  (∃ name, city = TouristKG.DBR ++ name) →
  t ∈ TouristKG.build_kg ep df → node_str (subject t) = city →
  object t = ns_term TouristKG.EX (py "City").
Proof.
  intros Hpoi Hsup (name & Hcity) (r & Hr & Ht)%TouristExtra.elem_of_build_kg
    Hsubj.
  rewrite TouristExtra.add_row_added in Ht.
  assert (node_str (TouristKG.type_node (TouristKG.Type_ r)) ≠ city) as Htype.
  { rewrite Hcity. unfold TouristKG.type_node, ns_term. simpl.
    apply kg_namespace_not_dbpedia. }
  apply elem_of_app in Ht as [Ht|Ht].
  - apply list_elem_of_In in Ht. simpl in Ht.
    destruct Ht as [<- | [<- | [<- | [<- | []]]]]; try done;
      by destruct (Hpoi r Hr).
  - destruct (TouristKG.get_wikidata_mapping ep (TouristKG.POI r))
      as [|wd0 rest] eqn:Hmap; [by apply elem_of_nil in Ht|].
    apply elem_of_app in Ht as [Ht|Ht].
    + apply list_elem_of_In in Ht. simpl in Ht.
      destruct Ht as [<- | [<- | [<- | []]]]; try done;
        by destruct (Hpoi r Hr).
    + apply chain_subjects, elem_of_cons in Ht as [Ht|Ht].
      * rewrite Ht in Hsubj. done.
      * destruct (Hsup r wd0 rest Hr Hmap).
        rewrite <-Hsubj. by rewrite <-(supers_URIRef _ _ Ht).
Qed.

(** X20. The subgraph visualize.py draws for a city holds the city and
    the City class only: a city node points to nothing else, since the
    POIs point to the city and not the city to them. This needs the
    city URI to be the POI of no row and to occur in no hierarchy. *)
Theorem city_subgraph_has_no_poi ep (df : list TouristKG.Row)
    (row : TouristKG.Row) :
  row ∈ df →
  (∀ r, r ∈ df →
     TouristKG.POI r ≠ node_str (TouristMain.city_node row)) →
  (∀ r wd0 rest, r ∈ df →
     TouristKG.get_wikidata_mapping ep (TouristKG.POI r) = wd0 :: rest →
     TouristMain.city_node row
     ∉ TouristKG.supers (TouristKG.get_wikidata_type_hierarchy ep wd0)) →
  city_subgraph_nodes (TouristKG.build_kg ep df)
    (node_str (TouristMain.city_node row))
  = Some ({[TouristKG.EX ++ py "City"]}
          ∪ {[node_str (TouristMain.city_node row)]}).
Proof.
  intros Hrow Hpoi Hsup.
  set (city := node_str (TouristMain.city_node row)) in *.
  set (g := TouristKG.build_kg ep df).
  assert ((TouristMain.city_node row, RDF_type,
           ns_term TouristKG.EX (py "City")) ∈ g) as Hcity.
  { apply TouristExtra.elem_of_build_kg. exists row. split; [done|].
    rewrite TouristExtra.add_row_added. apply elem_of_app. left.
    do 3 apply list_elem_of_further. apply list_elem_of_here. }
  assert ((city, TouristKG.EX ++ py "City") ∈ digraph_edges g) as Hedge.
  { unfold digraph_edges. apply elem_of_map.
    exists (TouristMain.city_node row, RDF_type,
            ns_term TouristKG.EX (py "City")). by split. }
  unfold city_subgraph_nodes, neighbors.
  rewrite decide_True.
  2:{ unfold digraph_nodes. apply elem_of_union. left.
      apply elem_of_map. by exists (city, TouristKG.EX ++ py "City"). }
  simpl. f_equal. f_equal. apply set_eq. intros x.
  rewrite elem_of_map, elem_of_singleton. split.
  - intros (e & -> & [He Hin]%elem_of_filter).
    apply elem_of_map in Hin as (t & -> & Ht). simpl in *.
    rewrite (build_kg_city_successor ep df city t); try done.
    by eexists.
  - intros ->. exists (city, TouristKG.EX ++ py "City").
    split; [done|]. by apply elem_of_filter.
Qed.

Lemma city_subgraph_has_no_poi_witness :
  city_subgraph_nodes
    (TouristKG.build_kg TouristSamples.endpoints
       [TouristSamples.row; TouristSamples.other_row])
    (node_str (TouristMain.city_node TouristSamples.row))
  = Some ({[TouristKG.EX ++ py "City"]}
          ∪ {[node_str (TouristMain.city_node TouristSamples.row)]}).
Proof.
  apply city_subgraph_has_no_poi.
  - apply list_elem_of_here.
  - intros r Hr. apply list_elem_of_In in Hr. simpl in Hr.
    destruct Hr as [<- | [<- | []]]; vm_compute; discriminate.
  - intros r wd0 rest Hr. apply list_elem_of_In in Hr. simpl in Hr.
    destruct Hr as [<- | [<- | []]].
    + intros [= <- <-]. apply (bool_decide_unpack _). vm_compute. exact I.
    + intros Hmap. vm_compute in Hmap. discriminate Hmap.
Defined.

End VizExtra.
